(** * ledger-repl: the session / execution / event-log engine of [App.js]

    A shallow embedding of [src/renderer/components/App.js]: the module-level
    [id] counter and the [logs] reducer, the two event mappings merged in
    [eventObservable], the [filters] reducer with the rendered projection,
    the transport session handlers and the command dispatcher.  React state
    cells are fields of records, handlers are functions from state to state,
    and what a memoised callback captured at its last re-creation is a field
    of its own. *)

From Stdlib Require Import ZArith String Ascii List Sorted Lia.
From Stdlib Require Import DecimalString.
From Stdlib Require Floats.SpecFloat.
From stdpp Require Import base option list strings gmap.

Local Open Scope string_scope.

(** ** JavaScript values *)

Module Js.

(** The values that reach the log: primitives and objects.  An object is
    seen through the two properties the code reads ([name], [message]) and
    through the string its own [toString] yields.  Numbers other than the
    elapsed time (an integer, kept in [Z] where it is computed) are not
    part of the model. *)
Inductive jsval : Type :=
  | JUndefined
  | JNull
  | JBool (b : bool)
  | JStr (s : string)
  | JObj (name message : jsval) (str : string).

(** ToBoolean. *)
Definition truthy (v : jsval) : bool :=
  match v with
  | JUndefined | JNull => false
  | JBool b => b
  | JStr s => negb (String.eqb s "")
  | JObj _ _ _ => true
  end.

(** ToString, as [String(v)], string concatenation and template literals
    apply it. *)
Definition ToString (v : jsval) : string :=
  match v with
  | JUndefined => "undefined"
  | JNull => "null"
  | JBool true => "true"
  | JBool false => "false"
  | JStr s => s
  | JObj _ _ str => str
  end.

(** [typeof v === "string"]. *)
Definition is_string (v : jsval) : bool :=
  match v with JStr _ => true | _ => false end.

(** [v !== s] for a string literal [s]. *)
Definition strict_neq_str (v : jsval) (s : string) : bool :=
  match v with
  | JStr t => negb (String.eqb t s)
  | _ => true
  end.

(** Property reads [v.name] and [v.message]; a primitive has neither. *)
Definition get_name (v : jsval) : jsval :=
  match v with JObj n _ _ => n | _ => JUndefined end.

Definition get_message (v : jsval) : jsval :=
  match v with JObj _ m _ => m | _ => JUndefined end.

(** [a && b] and [a || b] on values already evaluated. *)
Definition js_and (a b : jsval) : jsval := if truthy a then b else a.
Definition js_or (a b : jsval) : jsval := if truthy a then a else b.

(** Decimal rendering of an integral number. *)
Definition string_of_Z (z : Z) : string := NilZero.string_of_int (Z.to_int z).

(** The no-break space U+00A0 of the string literals in the source, in
    UTF-8 as the other text is: the bytes 194 and 160. *)
Definition nbsp : string :=
  String (Ascii.ascii_of_nat 194) (String (Ascii.ascii_of_nat 160) "").

End Js.

Import Js.

(** ** The log store: [let id = 0] and the [logs] reducer *)

Module LogStore.

(** What [addLog] is given: [{ type, text, object }]; an absent [object]
    reads as [undefined]. *)
Record payload : Type := Payload {
  p_type : string;
  p_text : jsval;
  p_object : jsval
}.

(** [{ id: ++id, date: new Date(), ...action.payload }] *)
Record LogEntry : Type := Entry {
  log_id : N;
  log_date : Z;
  log_type : string;
  log_text : jsval;
  log_object : jsval
}.

Inductive action : Type :=
  | ADD (p : payload)
  | CLEAR
  | OTHER.

(** The module-level counter together with the reducer's state.  The
    counter is a JavaScript number; it is exact as long as it stays below
    2^53, and is kept as an unbounded [N] here. *)
Record store : Type := Store {
  id : N;
  logs : list LogEntry
}.

(** The reducer body; [now] is the clock reading [new Date()] takes. *)
Definition reducer (now : Z) (s : store) (a : action) : store :=
  match a with
  | ADD p =>
      let i := (id s + 1)%N in
      {| id := i;
         logs := logs s ++ [Entry i now (p_type p) (p_text p) (p_object p)] |}
  | CLEAR => {| id := id s; logs := [] |}
  | OTHER => s
  end.

(** The first line of the [announcement] template literal; the lines after
    it are release notes. *)
Definition announcement : string := "Welcome to Ledger REPL!".

(** First render: the initial-state argument is evaluated with [id = 0]. *)
Definition init (now : Z) : store :=
  {| id := 1;
     logs := [Entry 1 now "announcement" (JStr announcement) JUndefined] |}.

(** Every later call of the component evaluates the initial-state argument
    again: [++id] runs and the array it built is dropped by [useReducer]. *)
Definition rerender (s : store) : store :=
  {| id := (id s + 1)%N; logs := logs s |}.

Definition addLog (now : Z) (p : payload) (s : store) : store :=
  reducer now s (ADD p).

Definition clearLogs (now : Z) (s : store) : store :=
  reducer now s CLEAR.

(** Operations on the store over time. *)
Inductive op : Type :=
  | Dispatch (now : Z) (a : action)
  | Rerender.

Definition apply (s : store) (o : op) : store :=
  match o with
  | Dispatch now a => reducer now s a
  | Rerender => rerender s
  end.

Fixpoint run (s : store) (ops : list op) : store :=
  match ops with
  | [] => s
  | o :: ops' => run (apply s o) ops'
  end.

(** The ids given to entries by the operations [ops] started in [s], in the
    order in which they were given. *)
Fixpoint issued (s : store) (ops : list op) : list N :=
  match ops with
  | [] => []
  | o :: ops' =>
      match o with
      | Dispatch _ (ADD _) => [(id s + 1)%N]
      | _ => []
      end ++ issued (apply s o) ops'
  end.

(** Every id of the process so far: the announcement's, then the issued. *)
Definition all_ids (now : Z) (ops : list op) : list N :=
  1%N :: issued (init now) ops.

(** What an entry keeps of the payload it was made from. *)
Definition entry_payload (e : LogEntry) : payload :=
  {| p_type := log_type e; p_text := log_text e; p_object := log_object e |}.

(** The entries in the store carry ids of [seen], in increasing order and
    not above the counter. *)
Definition store_ok (seen : list N) (s : store) : Prop :=
  Forall (fun e => log_id e ∈ seen) (logs s)
  /\ StronglySorted N.lt (map log_id (logs s))
  /\ Forall (fun e => (log_id e <= id s)%N) (logs s).

End LogStore.

Import LogStore.

(** ** The event aggregator: [eventObservable] *)

Module Aggregator.

(** A raw event of either source, seen through the properties the mappings
    read.  [type] is a string; [message] and [url] are whatever the source
    put there. *)
Record raw : Type := Raw {
  type : string;
  message : jsval;
  url : jsval
}.

Definition payload2 (ty : string) (tx : jsval) : payload :=
  {| p_type := ty; p_text := tx; p_object := JUndefined |}.

(** The [map] over [socketLogs]. *)
Definition socketLogs_map (e : raw) : payload :=
  if String.eqb (type e) "warning" then
    payload2 "warn" (message e)
  else if String.eqb (type e) "socket-opened" then
    payload2 "verbose" (JStr ("WS opened " +:+ ToString (url e)))
  else if String.eqb (type e) "socket-closed" then
    payload2 "verbose" (JStr "WS closed")
  else if String.eqb (type e) "socket-message-warning"
       || String.eqb (type e) "socket-message-error"
       || String.eqb (type e) "socket-error" then
    payload2 "error" (JStr (type e +:+ " " +:+ ToString (message e)))
  else
    payload2 "verbose"
      (JStr ("network: " +:+ type e +:+
             (if is_string (message e)
              then ": " +:+ ToString (message e) else ""))).

(** What the [listen] callback does with one device log: it either pushes
    a payload into the observable or prints on the console. *)
Inductive effect : Type :=
  | Next (p : payload)
  | ConsoleLog (line : string).

Definition listen_callback (log : raw) : effect :=
  if String.eqb (type log) "apdu" then
    Next (payload2 "apdu" (message log))
  else if String.eqb (type log) "ble-frame"
       || String.eqb (type log) "hid-frame" then
    Next (payload2 "binary" (message log))
  else if String.eqb (type log) "ble-error" then
    Next (payload2 "error" (message log))
  else if String.eqb (type log) "ble-verbose" then
    Next (payload2 "verbose" (message log))
  else
    ConsoleLog ("(unhandled) " +:+ type log +:+ ": " +:+ ToString (message log)).

(** [.pipe(filter(e => e))]: a payload is an object, hence truthy. *)
Definition pipe_filter (p : payload) : option payload := Some p.

(** The payloads one raw event contributes to the merged stream. *)
Definition emitted_socket (e : raw) : list payload :=
  match pipe_filter (socketLogs_map e) with
  | Some p => [p]
  | None => []
  end.

Definition emitted_device (log : raw) : list payload :=
  match listen_callback log with
  | Next p => match pipe_filter p with Some q => [q] | None => [] end
  | ConsoleLog _ => []
  end.

Definition console_device (log : raw) : list string :=
  match listen_callback log with
  | Next _ => []
  | ConsoleLog l => [l]
  end.

(** [eventObservable.subscribe(addLog)] *)
Definition subscribe_addLog (now : Z) (ps : list payload) (s : store) : store :=
  fold_left (fun acc p => addLog now p acc) ps s.

Definition on_socket_event (now : Z) (e : raw) (s : store) : store :=
  subscribe_addLog now (emitted_socket e) s.

Definition on_device_log (now : Z) (log : raw) (s : store) : store :=
  subscribe_addLog now (emitted_device log) s.

(** The types each [switch] has a [case] for. *)
Definition device_types : list string :=
  ["apdu"; "ble-frame"; "hid-frame"; "ble-error"; "ble-verbose"].

Definition socket_error_types : list string :=
  ["socket-message-warning"; "socket-message-error"; "socket-error"].

Definition socket_types : list string :=
  ["warning"; "socket-opened"; "socket-closed"] ++ socket_error_types.

End Aggregator.

(** ** The log filters and the rendered projection *)

Module Filters.

(** The [filters] object. *)
Definition initial : gmap string bool :=
  <["error" := true]> (<["warn" := true]> (<["command" := true]>
  (<["apdu" := true]> (<["binary" := true]> (<["verbose" := true]>
  (<["announcement" := true]> ∅)))))).

(** [filters[type]] as a condition: an absent key reads [undefined]. *)
Definition enabled (filters : gmap string bool) (ty : string) : bool :=
  match filters !! ty with
  | Some b => b
  | None => false
  end.

(** The reducer [(filters, type) => ({ ...filters, [type]: !filters[type] })]. *)
Definition toggleFilter (filters : gmap string bool) (ty : string)
  : gmap string bool :=
  <[ty := negb (enabled filters ty)]> filters.

(** [logs.filter(log => filters[log.type])] *)
Definition rendered (filters : gmap string bool) (l : list LogEntry)
  : list LogEntry :=
  List.filter (fun log => enabled filters (log_type log)) l.

(** The four [HeaderFilter] elements and the kind each one toggles. *)
Inductive header : Type := Commands | APDUs | Binary | Verbose.

Definition header_filter (h : header) : string :=
  match h with
  | Commands => "command"
  | APDUs => "apdu"
  | Binary => "binary"
  | Verbose => "verbose"
  end.

Definition click (filters : gmap string bool) (h : header) : gmap string bool :=
  toggleFilter filters (header_filter h).

Definition clicks (hs : list header) : gmap string bool :=
  fold_left click hs initial.

(** The kinds of log entries, which are the keys of [initial]. *)
Definition kinds : list string :=
  ["error"; "warn"; "command"; "apdu"; "binary"; "verbose"; "announcement"].

(** The filters after toggling the given types in turn. *)
Definition toggles (tys : list string) : gmap string bool :=
  fold_left toggleFilter tys initial.

(** The kinds no [HeaderFilter] toggles. *)
Definition unfiltered_kinds : list string := ["error"; "warn"; "announcement"].

End Filters.

(** ** The transport session *)

Module Session.

(** A transport handle is an object; only its identity matters here. *)
Definition handle : Type := nat.

(** The state cells [transport], [leftTransports], [transportOpening];
    the value of [leftTransports] that the memoised [onLeaveTransport]
    closed over when it was last re-created (its dependency list is
    [[transport]]); and, on the side of the handles, which of them still
    carry the component's [disconnect] listener and on which [close()]
    has been called. *)
Record session : Type := Session {
  transport : option handle;
  leftTransports : list handle;
  transportOpening : bool;
  onLeave_leftTransports : list handle;
  listening : list handle;
  closed : list handle
}.

Definition init : session :=
  {| transport := None; leftTransports := []; transportOpening := false;
     onLeave_leftTransports := []; listening := []; closed := [] |}.

(** [leftTransports.filter(lt => lt !== t)] *)
Definition without (t : handle) (l : list handle) : list handle :=
  List.filter (fun lt => negb (Nat.eqb lt t)) l.

(** The re-render after a handler: [useCallback(..., [transport])] keeps
    the previous [onLeaveTransport] when [transport] is the same value and
    otherwise builds a new one over the current [leftTransports]. *)
Definition render (old new : session) : session :=
  {| transport := transport new;
     leftTransports := leftTransports new;
     transportOpening := transportOpening new;
     onLeave_leftTransports :=
       if decide (transport old = transport new)
       then onLeave_leftTransports old
       else leftTransports new;
     listening := listening new;
     closed := closed new |}.

(** [onOpenTransport], up to the call of [open]. *)
Definition onOpenTransport (s : session) : session :=
  {| transport := None;
     leftTransports := leftTransports s;
     transportOpening := true;
     onLeave_leftTransports := onLeave_leftTransports s;
     listening := listening s;
     closed := closed s |}.

(** The fulfilment handler of [open(transportMode)], including
    [listenTransportDisconnect(t)]. *)
Definition open_resolved (t : handle) (s : session) : session :=
  {| transport := Some t;
     leftTransports := leftTransports s;
     transportOpening := false;
     onLeave_leftTransports := onLeave_leftTransports s;
     listening := listening s ++ [t];
     closed := closed s |}.

(** The rejection handler, as far as the session goes. *)
Definition open_rejected (s : session) : session :=
  {| transport := transport s;
     leftTransports := leftTransports s;
     transportOpening := false;
     onLeave_leftTransports := onLeave_leftTransports s;
     listening := listening s;
     closed := closed s |}.

(** [onLeaveTransport]: the list it concatenates to is the captured one. *)
Definition onLeaveTransport (s : session) : session :=
  match transport s with
  | None => s
  | Some t =>
      {| transport := None;
         leftTransports := onLeave_leftTransports s ++ [t];
         transportOpening := transportOpening s;
         onLeave_leftTransports := onLeave_leftTransports s;
         listening := listening s;
         closed := closed s |}
  end.

(** [t.close()]: no state cell changes. *)
Definition close_handle (t : handle) (s : session) : session :=
  {| transport := transport s;
     leftTransports := leftTransports s;
     transportOpening := transportOpening s;
     onLeave_leftTransports := onLeave_leftTransports s;
     listening := listening s;
     closed := closed s ++ [t] |}.

(** [onClose] *)
Definition onClose (s : session) : session :=
  match transport s with
  | None => s
  | Some t => close_handle t s
  end.

(** The [onClick] of a "Re-use" button. *)
Definition reuse (t : handle) (s : session) : session :=
  {| transport := Some t;
     leftTransports := without t (leftTransports s);
     transportOpening := transportOpening s;
     onLeave_leftTransports := onLeave_leftTransports s;
     listening := listening s;
     closed := closed s |}.

(** The [disconnect] listener of [t]: it detaches itself and runs the
    callback kept in the ref, which reads the current state cells. *)
Definition disconnected (t : handle) (s : session) : session :=
  if decide (transport s = Some t) then
    {| transport := None;
       leftTransports := leftTransports s;
       transportOpening := transportOpening s;
       onLeave_leftTransports := onLeave_leftTransports s;
       listening := without t (listening s);
       closed := closed s |}
  else
    {| transport := transport s;
       leftTransports := without t (leftTransports s);
       transportOpening := transportOpening s;
       onLeave_leftTransports := onLeave_leftTransports s;
       listening := without t (listening s);
       closed := closed s |}.

(** What can happen to a session: the clicks the left panel offers and the
    events of the transport provider and of the handles. *)
Inductive event : Type :=
  | ClickOpen
  | OpenResolved (t : handle)
  | OpenRejected
  | ClickLeave
  | ClickClose
  | ClickReuse (t : handle)
  | ClickCloseLeft (t : handle)
  | Disconnect (t : handle).

Definition handler (ev : event) (s : session) : session :=
  match ev with
  | ClickOpen => onOpenTransport s
  | OpenResolved t => open_resolved t s
  | OpenRejected => open_rejected s
  | ClickLeave => onLeaveTransport s
  | ClickClose => onClose s
  | ClickReuse t => reuse t s
  | ClickCloseLeft t => close_handle t s
  | Disconnect t => disconnected t s
  end.

Definition react (s : session) (ev : event) : session :=
  render s (handler ev s).

Definition mem (t : handle) (l : list handle) : bool :=
  existsb (Nat.eqb t) l.

(** A state cell holding a handle is truthy, one holding [null] is not. *)
Definition present {A : Type} (o : option A) : bool :=
  match o with Some _ => true | None => false end.

(** When an event can happen.  The "Open" button is rendered without a
    transport and disabled while opening; "X" and "Close" are rendered
    with a transport; each backgrounded handle has its "Re-use" and
    "Close" buttons.  [open] settles once per call and yields a
    connection the component does not hold; a listener fires only while
    attached. *)
Definition enabled (s : session) (ev : event) : bool :=
  match ev with
  | ClickOpen => negb (present (transport s)) && negb (transportOpening s)
  | OpenResolved t =>
      transportOpening s && negb (mem t (leftTransports s))
      && negb (mem t (listening s))
  | OpenRejected => transportOpening s
  | ClickLeave | ClickClose => present (transport s)
  | ClickReuse t | ClickCloseLeft t => mem t (leftTransports s)
  | Disconnect t => mem t (listening s)
  end.

Fixpoint run (s : session) (evs : list event) : session :=
  match evs with
  | [] => s
  | ev :: evs' => run (react s ev) evs'
  end.

Fixpoint possible (s : session) (evs : list event) : bool :=
  match evs with
  | [] => true
  | ev :: evs' => enabled s ev && possible (react s ev) evs'
  end.

Inductive reachable : session -> Prop :=
  | reachable_init : reachable init
  | reachable_step s ev :
      reachable s -> enabled s ev = true -> reachable (react s ev).

(** No handle is both active and backgrounded. *)
Definition exclusive (s : session) : Prop :=
  forall h, transport s = Some h -> h ∉ leftTransports s.

End Session.

Import Session.

(** ** Elapsed time: [d < 1000 ? d + "ms" : (d / 1000).toFixed(1) + "s"] *)

Module Elapsed.

Import Floats.SpecFloat.

(** The binary64 number nearest to an integer. *)
Definition number (z : Z) : spec_float := binary_normalize 53 1024 z 0 false.

(** [d / 1000] in binary64. *)
Definition seconds (d : Z) : spec_float :=
  SFdiv 53 1024 (number d) (number 1000).

(** The integer [n] for which [n / 10] is nearest to [m * 2^e], the larger
    one when two are as near. *)
Definition tenths (m : positive) (e : Z) : Z :=
  match e with
  | Z0 => 10 * Z.pos m
  | Z.pos p => 10 * Z.pos m * 2 ^ Z.pos p
  | Z.neg p => (20 * Z.pos m + 2 ^ Z.pos p) / 2 ^ (Z.pos p + 1)
  end.

(** [x.toFixed(1)] for [x] below 10^21 in magnitude, which the seconds
    between two clock readings are. *)
Definition toFixed1 (x : spec_float) : string :=
  match x with
  | S754_zero _ => "0.0"
  | S754_infinity false => "Infinity"
  | S754_infinity true => "-Infinity"
  | S754_nan => "NaN"
  | S754_finite s m e =>
      (if s then "-" else "") +:+
      string_of_Z (tenths m e / 10) +:+ "." +:+ string_of_Z (tenths m e mod 10)
  end.

Definition delta (d : Z) : string :=
  if (d <? 1000)%Z then string_of_Z d +:+ "ms"
  else toFixed1 (seconds d) +:+ "s".

(** A rendering with exactly one decimal: an optional sign, the digits of
    a natural number, a point and one more digit. *)
Definition one_decimal (s : string) : Prop :=
  exists (sign : string) (whole digit : Z),
    (sign = "" \/ sign = "-")
    /\ (0 <= whole)%Z /\ (0 <= digit < 10)%Z
    /\ String.length (string_of_Z digit) = 1
    /\ s = sign +:+ string_of_Z whole +:+ "." +:+ string_of_Z digit.

End Elapsed.

(** ** The component: dispatcher, error logging and what is rendered *)

Module App.

(** A command of the catalogue: its [id] and what [getDefaultValue] gives
    for its form. *)
Record Command : Type := Cmd {
  cmd_id : string;
  cmd_default : list jsval
}.

(** A subscription made by [onSendCommand], with what its observer closed
    over. *)
Record execution : Type := Exec {
  token : nat;
  exec_command : Command;
  exec_transport : handle;
  startTime : Z
}.

(** The state cells of the dispatcher, the subscriptions that are still
    open, and the number of subscriptions made so far. *)
Record dispatcher : Type := Dispatcher {
  selectedCommand : option Command;
  commandSub : option nat;
  commandValue : list jsval;
  dependencies : option jsval;
  subscriptions : list execution;
  next_token : nat
}.

Record app : Type := MkApp {
  sess : session;
  disp : dispatcher;
  st : store;
  filters : gmap string bool
}.

Definition init (now : Z) : app :=
  {| sess := Session.init;
     disp := {| selectedCommand := None; commandSub := None;
                commandValue := []; dependencies := None;
                subscriptions := []; next_token := 0 |};
     st := LogStore.init now;
     filters := Filters.initial |}.

Definition with_st (f : store -> store) (a : app) : app :=
  {| sess := sess a; disp := disp a; st := f (st a); filters := filters a |}.

Definition with_disp (f : dispatcher -> dispatcher) (a : app) : app :=
  {| sess := sess a; disp := f (disp a); st := st a; filters := filters a |}.

Definition with_sess (f : session -> session) (a : app) : app :=
  {| sess := f (sess a); disp := disp a; st := st a; filters := filters a |}.

Definition setCommandSub (v : option nat) (d : dispatcher) : dispatcher :=
  {| selectedCommand := selectedCommand d; commandSub := v;
     commandValue := commandValue d; dependencies := dependencies d;
     subscriptions := subscriptions d; next_token := next_token d |}.

Definition setDependencies (v : option jsval) (d : dispatcher) : dispatcher :=
  {| selectedCommand := selectedCommand d; commandSub := commandSub d;
     commandValue := commandValue d; dependencies := v;
     subscriptions := subscriptions d; next_token := next_token d |}.

(** Closing a subscription: by [unsubscribe], completion or error. *)
Definition drop_subscription (tok : nat) (d : dispatcher) : dispatcher :=
  {| selectedCommand := selectedCommand d; commandSub := commandSub d;
     commandValue := commandValue d; dependencies := dependencies d;
     subscriptions :=
       List.filter (fun x => negb (Nat.eqb (token x) tok)) (subscriptions d);
     next_token := next_token d |}.

Definition subscription (tok : nat) (d : dispatcher) : option execution :=
  List.find (fun x => Nat.eqb (token x) tok) (subscriptions d).

(** The text [addLogError] builds. *)
Definition error_text (error : jsval) : string :=
  (if truthy (js_and (js_and error (get_name error))
                     (JBool (strict_neq_str (get_name error) "Error")))
   then ToString (get_name error) +:+ ": "
   else "")
  +:+ ToString (js_or (js_and error (get_message error)) error).

(** The text as the description of the error path words it: the name and
    ": " when the error has a name property other than "Error", then the
    message when it is truthy and the error itself otherwise. *)
Definition has_property (v : jsval) : bool :=
  match v with JUndefined => false | _ => true end.

Definition described_error_text (e : jsval) : string :=
  (if has_property (get_name e) && strict_neq_str (get_name e) "Error"
   then ToString (get_name e) +:+ ": "
   else "")
  +:+ (if truthy (get_message e) then ToString (get_message e)
       else ToString e).

(** The same with a truthy name required. *)
Definition truthy_name_error_text (e : jsval) : string :=
  (if truthy (get_name e) && strict_neq_str (get_name e) "Error"
   then ToString (get_name e) +:+ ": "
   else "")
  +:+ (if truthy (get_message e) then ToString (get_message e)
       else ToString e).

Definition addLogError (now : Z) (error : jsval) (s : store) : store :=
  addLog now {| p_type := "error"; p_text := JStr (error_text error);
                p_object := JUndefined |} s.

(** The four places that hand an error to [addLogError]. *)
Definition open_failed (now : Z) (error : jsval) (a : app) : app :=
  with_st (addLogError now error) (with_sess (fun s => react s OpenRejected) a).

Definition resolveDependencies_failed (now : Z) (error : jsval) (a : app) : app :=
  with_st (addLogError now error) a.

Definition onSendApdu_failed (now : Z) (e : jsval) (a : app) : app :=
  with_st (addLogError now e) a.

Definition execution_error (now : Z) (tok : nat) (error : jsval) (a : app) : app :=
  match subscription tok (disp a) with
  | None => a
  | Some _ =>
      with_st (addLogError now error)
        (with_disp (fun d => drop_subscription tok (setCommandSub None d)) a)
  end.

(** [onSelectedCommand]; the dependencies arrive later. *)
Definition onSelectedCommand (c : option Command) (a : app) : app :=
  match c, transport (sess a) with
  | Some cmd, Some _ =>
      with_disp (fun d =>
        {| selectedCommand := Some cmd; commandSub := commandSub d;
           commandValue := cmd_default cmd; dependencies := None;
           subscriptions := subscriptions d; next_token := next_token d |}) a
  | _, _ => a
  end.

Definition resolveDependencies_done (bag : jsval) (a : app) : app :=
  with_disp (setDependencies (Some bag)) a.

(** [onCommandCancel] *)
Definition onCommandCancel (a : app) : app :=
  match commandSub (disp a) with
  | None => a
  | Some tok =>
      with_disp (fun d => setCommandSub None (drop_subscription tok d)) a
  end.

(** The entries [onSendCommand] adds before it subscribes; the texts end
    in a no-break space. *)
Definition invocation (c : Command) (value : list jsval) : list payload :=
  {| p_type := "command"; p_text := JStr ("=>" +:+ nbsp +:+ cmd_id c);
     p_object := JUndefined |}
  :: map (fun object =>
            {| p_type := "command"; p_text := JStr ("+" +:+ nbsp);
               p_object := object |})
         value.

(** [onSendCommand]: the execution delivers its results asynchronously. *)
Definition onSendCommand (now : Z) (a : app) : app :=
  match selectedCommand (disp a), transport (sess a) with
  | Some c, Some t =>
      let d := disp a in
      {| sess := sess a;
         disp :=
           {| selectedCommand := selectedCommand d;
              commandSub := Some (next_token d);
              commandValue := commandValue d;
              dependencies := dependencies d;
              subscriptions :=
                subscriptions d ++ [Exec (next_token d) c t now];
              next_token := S (next_token d) |};
         st := fold_left (fun acc p => addLog now p acc)
                 (invocation c (commandValue d)) (st a);
         filters := filters a |}
  | _, _ => a
  end.

(** The observer's [next]. *)
Definition execution_next (now : Z) (tok : nat) (result : jsval) (a : app) : app :=
  match subscription tok (disp a) with
  | None => a
  | Some _ =>
      with_st (addLog now {| p_type := "command"; p_text := JStr "<=";
                             p_object := result |}) a
  end.

(** The observer's [complete]. *)
Definition execution_complete (now : Z) (tok : nat) (a : app) : app :=
  match subscription tok (disp a) with
  | None => a
  | Some x =>
      let d := (now - startTime x)%Z in
      with_st (addLog now
                 {| p_type := "command";
                    p_text := JStr (cmd_id (exec_command x) +:+
                                    " completed in " +:+ Elapsed.delta d +:+ ".");
                    p_object := JUndefined |})
        (with_disp (fun dp => drop_subscription tok (setCommandSub None dp)) a)
  end.

(** [toggleFilter] and the rendered log. *)
Definition toggleFilter (ty : string) (a : app) : app :=
  {| sess := sess a; disp := disp a; st := st a;
     filters := Filters.toggleFilter (filters a) ty |}.

Definition view (a : app) : list LogEntry :=
  Filters.rendered (filters a) (logs (st a)).

(** Which of "Send" and "Cancel" the left panel shows. *)
Definition send_rendered (a : app) : bool :=
  present (transport (sess a)) && present (selectedCommand (disp a))
  && negb (present (commandSub (disp a))).

Definition cancel_rendered (a : app) : bool :=
  present (transport (sess a)) && present (selectedCommand (disp a))
  && present (commandSub (disp a)).

(** A state with an execution in flight: a transport opened, a command
    selected and sent at time 10. *)
Definition ping : Command := {| cmd_id := "getAppAndVersion"; cmd_default := [] |}.

Definition running : app :=
  onSendCommand 10
    (onSelectedCommand (Some ping)
       (with_sess (fun s => Session.run s [ClickOpen; OpenResolved 1])
          (init 0))).

End App.

(** ** The merged stream over time *)

Module Stream.

Import Aggregator.

(** An event of one of the two sources merged in [eventObservable]. *)
Inductive source_event : Type :=
  | FromSocket (e : raw)
  | FromDevice (log : raw).

Definition emitted (ev : source_event) : list payload :=
  match ev with
  | FromSocket e => emitted_socket e
  | FromDevice log => emitted_device log
  end.

Definition console (ev : source_event) : list string :=
  match ev with
  | FromSocket _ => []
  | FromDevice log => console_device log
  end.

(** One event arriving at clock reading [fst tev]. *)
Definition arrive (s : store) (tev : Z * source_event) : store :=
  subscribe_addLog (fst tev) (emitted (snd tev)) s.

Fixpoint feed (s : store) (evs : list (Z * source_event)) : store :=
  match evs with
  | [] => s
  | tev :: evs' => feed (arrive s tev) evs'
  end.

(** The events of one source among the arrivals, in arrival order. *)
Definition socket_events (evs : list (Z * source_event)) : list raw :=
  flat_map (fun tev => match snd tev with
                       | FromSocket e => [e]
                       | FromDevice _ => []
                       end) evs.

Definition device_events (evs : list (Z * source_event)) : list raw :=
  flat_map (fun tev => match snd tev with
                       | FromSocket _ => []
                       | FromDevice log => [log]
                       end) evs.

(** The kinds the two mappings can produce. *)
Definition source_kinds : list string :=
  ["warn"; "verbose"; "error"; "apdu"; "binary"].

End Stream.

(** ** Counting clicks on the header filters *)

Module Clicks.

Import Filters.

Definition same_header (a b : header) : bool :=
  match a, b with
  | Commands, Commands | APDUs, APDUs | Binary, Binary | Verbose, Verbose =>
      true
  | _, _ => false
  end.

(** How often [h] occurs among the clicks [hs]. *)
Definition clicks_on (h : header) (hs : list header) : nat :=
  length (List.filter (same_header h) hs).

(** [log.type !== k] as a test on entries. *)
Definition other_kind (k : string) (log : LogEntry) : bool :=
  negb (String.eqb (log_type log) k).

End Clicks.

(** ** The component as a whole: what is rendered and what can happen *)

Module Ui.

Import App.

(** The children of one [Log] element: the text, then a no-break space
    and the [Inspector] when [log.object] is truthy. *)
Record line : Type := Line {
  line_text : jsval;
  line_space : string;
  line_inspector : option jsval
}.

Definition render_log (log : LogEntry) : line :=
  {| line_text := log_text log;
     line_space := if truthy (log_object log) then nbsp else "";
     line_inspector :=
       if truthy (log_object log) then Some (log_object log) else None |}.

(** The rendered log: one line per entry that passes the filters. *)
Definition lines (a : app) : list line := map render_log (view a).

(** [onSendApdu]: [thrown] is what [Buffer.from] or [transport.exchange]
    threw, if anything.  The result is [undefined] without a transport,
    [true] after an exchange and [false] after a failure. *)
Definition onSendApdu (now : Z) (thrown : option jsval) (a : app)
  : option bool * app :=
  match transport (sess a) with
  | None => (None, a)
  | Some _ =>
      match thrown with
      | None => (Some true, a)
      | Some e => (Some false, onSendApdu_failed now e a)
      end
  end.

(** What can happen to the component: the clicks it renders and the events
    of the transport provider, of the handles, of a running execution and
    of the two log sources.  [error] in [Transport] is the reason of the
    rejection when the session event is one. *)
Inductive event : Type :=
  | Transport (ev : Session.event) (error : jsval)
  | SelectCommand (c : option Command)
  | DependenciesResolved (bag : jsval)
  | DependenciesRejected (error : jsval)
  | ClickSend
  | ClickCancel
  | ExecutionNext (tok : nat) (result : jsval)
  | ExecutionComplete (tok : nat)
  | ExecutionError (tok : nat) (error : jsval)
  | SendApdu (thrown : option jsval)
  | ClickHeader (h : Filters.header)
  | ClickClearLogs
  | SocketLog (e : Aggregator.raw)
  | DeviceLog (log : Aggregator.raw)
  | Render.

(** The handler of each event, run at clock reading [now].  [Render] is a
    further call of the component function, which evaluates [++id]. *)
Definition step (now : Z) (ev : event) (a : app) : app :=
  match ev with
  | Transport OpenRejected error => open_failed now error a
  | Transport sev _ => with_sess (fun s => react s sev) a
  | SelectCommand c => onSelectedCommand c a
  | DependenciesResolved bag => resolveDependencies_done bag a
  | DependenciesRejected error => resolveDependencies_failed now error a
  | ClickSend => onSendCommand now a
  | ClickCancel => onCommandCancel a
  | ExecutionNext tok result => execution_next now tok result a
  | ExecutionComplete tok => execution_complete now tok a
  | ExecutionError tok error => execution_error now tok error a
  | SendApdu thrown => snd (onSendApdu now thrown a)
  | ClickHeader h => toggleFilter (Filters.header_filter h) a
  | ClickClearLogs => with_st (clearLogs now) a
  | SocketLog e => with_st (Aggregator.on_socket_event now e) a
  | DeviceLog log => with_st (Aggregator.on_device_log now log) a
  | Render => with_st rerender a
  end.

(** Which events the rendered controls allow: the session's buttons as in
    [Session.enabled]; the command [Select] is in the transport section and
    disabled during an execution; "Send" and "Cancel" as rendered; the
    APDU sender is disabled without a transport.  Events from outside are
    not gated. *)
Definition enabled (a : app) (ev : event) : bool :=
  match ev with
  | Transport sev _ => Session.enabled (sess a) sev
  | SelectCommand _ =>
      present (transport (sess a)) && negb (present (commandSub (disp a)))
  | ClickSend => send_rendered a
  | ClickCancel => cancel_rendered a
  | SendApdu _ => present (transport (sess a))
  | _ => true
  end.

Fixpoint run (a : app) (evs : list (Z * event)) : app :=
  match evs with
  | [] => a
  | tev :: evs' => run (step (fst tev) (snd tev) a) evs'
  end.

Fixpoint possible (a : app) (evs : list (Z * event)) : bool :=
  match evs with
  | [] => true
  | tev :: evs' =>
      enabled a (snd tev) && possible (step (fst tev) (snd tev) a) evs'
  end.

Inductive reachable : app -> Prop :=
  | reachable_init now : reachable (App.init now)
  | reachable_step a now ev :
      reachable a -> enabled a ev = true -> reachable (step now ev a).

(** At most one execution: no subscription is open and [commandSub] is
    null, or exactly one is open, [commandSub] holds it and a command is
    selected. *)
Definition single_execution (d : dispatcher) : Prop :=
  match commandSub d, subscriptions d with
  | None, [] => True
  | Some tok, [x] => token x = tok /\ is_Some (selectedCommand d)
  | _, _ => False
  end.

(** The ids in the store increase strictly and none exceeds the counter. *)
Definition store_sorted (s : store) : Prop :=
  StronglySorted N.lt (map log_id (logs s))
  /\ Forall (fun e => (log_id e <= id s)%N) (logs s).

(** The payloads the component makes: of one of the seven kinds, and with
    an attachment only when the kind is command. *)
Definition known_payload (p : payload) : Prop :=
  p_type p ∈ Filters.kinds
  /\ (p_type p = "command" \/ p_object p = JUndefined).

(** What every step but the clearing does to the store: it appends
    payloads of known kinds or counts a render. *)
Definition store_grows (now : Z) (s s' : store) : Prop :=
  (exists ps, Forall known_payload ps
              /\ s' = fold_left (fun acc p => addLog now p acc) ps s)
  \/ s' = rerender s.

(** What a step does to the store: it appends payloads of known kinds,
    clears, or counts a render. *)
Definition store_change (now : Z) (s s' : store) : Prop :=
  (exists ps, Forall known_payload ps
              /\ s' = fold_left (fun acc p => addLog now p acc) ps s)
  \/ s' = clearLogs now s
  \/ s' = rerender s.

(** A token that was issued and whose subscription is not open. *)
Definition closed_subscription (tok : nat) (d : dispatcher) : Prop :=
  subscription tok d = None /\ tok < next_token d.

(** Every token in use was issued: the open subscriptions and
    [commandSub] hold tokens below [next_token]. *)
Definition tokens_issued (d : dispatcher) : Prop :=
  Forall (fun x => token x < next_token d) (subscriptions d)
  /\ forall tok, commandSub d = Some tok -> tok < next_token d.

(** What a step does to the subscriptions: nothing, one more with the next
    token, or those of one token closed. *)
Definition subscriptions_change (now : Z) (d d' : dispatcher) : Prop :=
  (subscriptions d' = subscriptions d /\ next_token d' = next_token d
   /\ (commandSub d' = commandSub d \/ commandSub d' = None))
  \/ (exists c t,
        subscriptions d'
        = (subscriptions d ++ [Exec (next_token d) c t now])%list
        /\ next_token d' = S (next_token d)
        /\ commandSub d' = Some (next_token d))
  \/ (exists tok,
        subscriptions d'
        = List.filter (fun x => negb (Nat.eqb (token x) tok)) (subscriptions d)
        /\ next_token d' = next_token d /\ commandSub d' = None).

(** The payload of a streamed result and of the completion entry. *)
Definition result_payload (result : jsval) : payload :=
  {| p_type := "command"; p_text := JStr "<="; p_object := result |}.

Definition completion_payload (c : Command) (d : Z) : payload :=
  {| p_type := "command";
     p_text := JStr (cmd_id c +:+ " completed in " +:+ Elapsed.delta d +:+ ".");
     p_object := JUndefined |}.

(** An execution whose observable delivers after [onSendCommand] has
    returned: "Send" at [t0], then the results, each with its arrival
    time, then completion at [t1], as steps of their own. *)
Definition execute (t0 : Z) (results : list (Z * jsval)) (t1 : Z) (a : app)
  : app :=
  let tok := next_token (disp a) in
  execution_complete t1 tok
    (fold_left (fun acc r => execution_next (fst r) tok (snd r) acc) results
       (onSendCommand t0 a)).

(** How an observable that delivers inside [subscribe] ends there. *)
Inductive inside_ending : Type :=
  | StaysOpen
  | CompletesInside (t1 : Z)
  | FailsInside (t1 : Z) (error : jsval).

(** [onSendCommand] when the observable delivers inside [subscribe]: the
    observer runs before [subscribe] returns, so its [setCommandSub(null)]
    comes first and the [setCommandSub] around [subscribe] comes last, with
    a subscription that is closed already when the observable has ended. *)
Definition onSendCommand_inside
    (t0 : Z) (results : list (Z * jsval)) (fin : inside_ending) (a : app)
  : app :=
  match selectedCommand (disp a), transport (sess a) with
  | Some _, Some _ =>
      let tok := next_token (disp a) in
      let delivered :=
        fold_left (fun acc r => execution_next (fst r) tok (snd r) acc) results
          (onSendCommand t0 a) in
      let ended :=
        match fin with
        | StaysOpen => delivered
        | CompletesInside t1 => execution_complete t1 tok delivered
        | FailsInside t1 error => execution_error t1 tok error delivered
        end in
      with_disp (setCommandSub (Some tok)) ended
  | _, _ => a
  end.

End Ui.

(** ** States used as instances *)

Module Scenario.

Import App Ui.

(** One handle opened and left in the background. *)
Definition backgrounded : session :=
  Session.run Session.init [ClickOpen; OpenResolved 1; ClickLeave].

(** A second handle opened while the first is in the background. *)
Definition second_active : session :=
  Session.run Session.init
    [ClickOpen; OpenResolved 1; ClickLeave; ClickOpen; OpenResolved 2].

(** A transport opened and a command selected. *)
Definition opening : list (Z * event) :=
  [(0%Z, Transport ClickOpen JUndefined);
   (1%Z, Transport (OpenResolved 1) JUndefined);
   (2%Z, SelectCommand (Some ping))].

Definition idle : app := Ui.run (App.init 0) opening.

(** The same with the command sent at time 10. *)
Definition busy : app := Ui.run idle [(10%Z, ClickSend)].

(** Three results of an execution with their arrival times. *)
Definition three_results : list (Z * jsval) :=
  [(20%Z, JStr "1.6.0"); (30%Z, JBool true); (40%Z, JNull)].

End Scenario.

(** * Properties *)

Import Aggregator.

(** ** Log ids *)

Section LogIds.

Import LogStore.
Local Open Scope list_scope.
Local Open Scope N_scope.

Lemma apply_id_mono (s : store) (o : op) : id s <= id (apply s o).
Proof.
  destruct o as [now [p| |]|]; simpl; lia.
Qed.

Lemma run_id_mono (ops : list op) : forall s, id s <= id (run s ops).
Proof.
  induction ops as [|o ops IH]; intros s; simpl.
  - lia.
  - specialize (IH (apply s o)). pose proof (apply_id_mono s o). lia.
Qed.

Lemma run_app (s : store) (xs ys : list op) :
  run s (xs ++ ys) = run (run s xs) ys.
Proof.
  revert s. induction xs as [|o xs IH]; intros s; simpl; [reflexivity|].
  apply IH.
Qed.

Lemma issued_app (xs ys : list op) : forall s,
  issued s (xs ++ ys) = issued s xs ++ issued (run s xs) ys.
Proof.
  induction xs as [|o xs IH]; intros s; simpl.
  - reflexivity.
  - rewrite IH. rewrite <- List.app_assoc. reflexivity.
Qed.

(** Ids issued from [s] on lie above the counter of [s] and at most at the
    counter reached. *)
Lemma issued_bounds (ops : list op) : forall s,
  Forall (fun i => id s < i <= id (run s ops)) (issued s ops).
Proof.
  induction ops as [|o ops IH]; intros s; simpl.
  - constructor.
  - apply Forall_app. split.
    + pose proof (run_id_mono ops (apply s o)) as Hm.
      destruct o as [now [p| |]|]; simpl in *; repeat constructor; lia.
    + pose proof (apply_id_mono s o) as Hs.
      eapply Forall_impl; [apply IH|]. simpl. intros i Hi. lia.
Qed.

Lemma issued_sorted (ops : list op) : forall s,
  StronglySorted N.lt (issued s ops).
Proof.
  induction ops as [|o ops IH]; intros s; simpl.
  - constructor.
  - pose proof (issued_bounds ops (apply s o)) as Hb.
    destruct o as [now [p| |]|]; simpl in *; try apply IH.
    constructor; [apply IH|].
    eapply Forall_impl; [apply Hb|]. simpl. intros i Hi. lia.
Qed.

Lemma sorted_lt_NoDup (l : list N) : StronglySorted N.lt l -> NoDup l.
Proof.
  induction 1 as [|a l Hs IH Hall]; constructor; auto.
  intros Hin. rewrite Forall_forall in Hall.
  specialize (Hall a Hin). lia.
Qed.

Lemma sorted_snoc (l : list N) (x : N) :
  StronglySorted N.lt l -> Forall (fun i => i < x) l ->
  StronglySorted N.lt (l ++ [x]).
Proof.
  induction 1 as [|a l Hs IH Hall]; intros Hx; simpl.
  - repeat constructor.
  - inversion Hx; subst. constructor; [auto|].
    apply Forall_app. split; [assumption|]. repeat constructor. assumption.
Qed.

Lemma store_ok_apply (seen : list N) (s : store) (o : op) :
  store_ok seen s -> store_ok (seen ++ issued s [o]) (apply s o).
Proof.
  intros (Hin & Hsort & Hle).
  destruct o as [now [p| |]|]; simpl; unfold store_ok; simpl.
  - split; [|split].
    + apply Forall_app. split.
      * eapply Forall_impl; [apply Hin|]. simpl. intros e He.
        apply elem_of_app. left. exact He.
      * repeat constructor. simpl. apply elem_of_app. right.
        apply list_elem_of_singleton. reflexivity.
    + rewrite map_app. simpl. apply sorted_snoc; [assumption|].
      apply Forall_map. eapply Forall_impl; [apply Hle|].
      simpl. intros e He. lia.
    + apply Forall_app. split.
      * eapply Forall_impl; [apply Hle|]. simpl. intros e He. lia.
      * repeat constructor. simpl. lia.
  - repeat split; constructor.
  - rewrite List.app_nil_r. repeat split; assumption.
  - rewrite List.app_nil_r. split; [assumption|]. split; [assumption|].
    eapply Forall_impl; [apply Hle|]. simpl. intros e He. lia.
Qed.

Lemma store_ok_run (ops : list op) : forall seen s,
  store_ok seen s -> store_ok (seen ++ issued s ops) (run s ops).
Proof.
  induction ops as [|o ops IH]; intros seen s Hok.
  - simpl. rewrite List.app_nil_r. exact Hok.
  - change (o :: ops) with ([o] ++ ops).
    rewrite issued_app, run_app, List.app_assoc.
    apply IH. apply store_ok_apply. exact Hok.
Qed.

Lemma store_ok_init (now : Z) : store_ok [1] (LogStore.init now).
Proof.
  unfold store_ok; simpl. split; [|split]; repeat constructor.
  simpl. lia.
Qed.

(** C3. Along every sequence of reducer dispatches (appends, clears, other
    actions) and re-renders after the first render, the ids given to
    entries are strictly increasing, hence pairwise distinct; the entries
    in the store carry such ids in increasing order; a clear leaves no
    entry and leaves the counter where it was; and an entry appended right
    after a clear has an id above every id given before. *)
Theorem ids_strictly_increasing_across_clear (now : Z) (ops : list op) :
  StronglySorted N.lt (all_ids now ops)
  /\ NoDup (all_ids now ops)
  /\ (forall e, e ∈ logs (run (LogStore.init now) ops) ->
        log_id e ∈ all_ids now ops)
  /\ StronglySorted N.lt (map log_id (logs (run (LogStore.init now) ops)))
  /\ (forall t,
        logs (run (LogStore.init now) (ops ++ [Dispatch t CLEAR])) = []
        /\ id (run (LogStore.init now) (ops ++ [Dispatch t CLEAR]))
           = id (run (LogStore.init now) ops))
  /\ (forall t t' p,
        exists e,
          logs (run (LogStore.init now)
                  (ops ++ [Dispatch t CLEAR; Dispatch t' (ADD p)])) = [e]
          /\ p_type p = log_type e /\ p_text p = log_text e
          /\ forall i, i ∈ all_ids now ops -> i < log_id e).
Proof.
  assert (Hsorted : StronglySorted N.lt (all_ids now ops)).
  { unfold all_ids. constructor; [apply issued_sorted|].
    eapply Forall_impl; [apply issued_bounds|]. simpl. intros i Hi. lia. }
  pose proof (store_ok_run ops [1] (LogStore.init now) (store_ok_init now))
    as (Hin & Hsort & _).
  split; [exact Hsorted|].
  split; [apply sorted_lt_NoDup; exact Hsorted|].
  split.
  { intros e He. rewrite Forall_forall in Hin. apply (Hin e He). }
  split; [exact Hsort|].
  split.
  { intros t. rewrite run_app. simpl. split; reflexivity. }
  intros t t' p. rewrite run_app. simpl.
  eexists. split; [reflexivity|]. simpl. split; [reflexivity|].
  split; [reflexivity|].
  intros i Hi. unfold all_ids in Hi.
  pose proof (run_id_mono ops (LogStore.init now)) as Hm. simpl in Hm.
  apply elem_of_cons in Hi as [-> | Hi]; [lia|].
  pose proof (issued_bounds ops (LogStore.init now)) as Hb.
  rewrite Forall_forall in Hb. specialize (Hb i Hi). simpl in Hb. lia.
Qed.

End LogIds.

(** ** The two event mappings *)

Section Mappings.

Local Open Scope list_scope.

(** Case analysis on the string comparisons of a [switch]. *)
Ltac switch_cases :=
  repeat match goal with
  | |- context [String.eqb ?a ?b] =>
      destruct (String.eqb_spec a b); simpl; try congruence
  end.

Ltac not_listed H :=
  repeat (apply not_elem_of_cons in H; destruct H as [? H]).

Ltac listed H :=
  repeat (apply elem_of_cons in H; destruct H as [H | H]);
  [.. | apply elem_of_nil in H; contradiction].

Lemma append_empty_r (x : string) : x +:+ "" = x.
Proof.
  induction x as [|c x IH]; [reflexivity|].
  change (String c (x +:+ "") = String c x). rewrite IH. reflexivity.
Qed.

(** C4. A device log whose type is none of apdu, ble-frame, hid-frame,
    ble-error, ble-verbose puts nothing into the stream, so the store is
    left as it was, and prints one line on the console; a log of one of
    the five types puts exactly one payload into the stream, of kind apdu,
    binary, binary, error, verbose in that order, whose text is the log's
    message, and prints nothing. *)
Theorem device_log_classification (log : raw) :
  (type log ∉ device_types ->
     emitted_device log = []
     /\ (forall now s, on_device_log now log s = s)
     /\ console_device log =
          ["(unhandled) " +:+ type log +:+ ": " +:+ ToString (message log)])
  /\ (type log = "apdu" ->
        emitted_device log = [payload2 "apdu" (message log)]
        /\ console_device log = [])
  /\ (type log = "ble-frame" ->
        emitted_device log = [payload2 "binary" (message log)]
        /\ console_device log = [])
  /\ (type log = "hid-frame" ->
        emitted_device log = [payload2 "binary" (message log)]
        /\ console_device log = [])
  /\ (type log = "ble-error" ->
        emitted_device log = [payload2 "error" (message log)]
        /\ console_device log = [])
  /\ (type log = "ble-verbose" ->
        emitted_device log = [payload2 "verbose" (message log)]
        /\ console_device log = [])
  /\ (forall now s p, emitted_device log = [p] ->
        exists e, logs (on_device_log now log s) = logs s ++ [e]
                  /\ log_type e = p_type p /\ log_text e = p_text p).
Proof.
  unfold on_device_log, emitted_device, console_device, listen_callback.
  split.
  { intros H. unfold device_types in H. not_listed H.
    split; [|split]; [| intros now s |]; switch_cases. }
  do 5 (split; [intros H; rewrite H; split; reflexivity|]).
  intros now s p Hp. rewrite Hp. simpl. eexists. split; [reflexivity|].
  split; reflexivity.
Qed.

(** C5. Every network event puts exactly one payload into the stream:
    warn with the message for type warning; verbose with "WS opened "
    followed by the url for socket-opened; verbose with "WS closed" for
    socket-closed; error with the type, a space and the message for
    socket-message-warning, socket-message-error and socket-error; and for
    any other type verbose with "network: " followed by the type, and then
    by ": " and the message exactly when the message is a string. *)
Theorem socket_event_classification (e : raw) :
  emitted_socket e = [socketLogs_map e]
  /\ (type e = "warning" -> socketLogs_map e = payload2 "warn" (message e))
  /\ (type e = "socket-opened" ->
        socketLogs_map e =
          payload2 "verbose" (JStr ("WS opened " +:+ ToString (url e))))
  /\ (type e = "socket-closed" ->
        socketLogs_map e = payload2 "verbose" (JStr "WS closed"))
  /\ (type e ∈ socket_error_types ->
        socketLogs_map e =
          payload2 "error" (JStr (type e +:+ " " +:+ ToString (message e))))
  /\ (type e ∉ socket_types ->
        (forall m, message e = JStr m ->
           socketLogs_map e =
             payload2 "verbose" (JStr ("network: " +:+ type e +:+ ": " +:+ m)))
        /\ (is_string (message e) = false ->
              socketLogs_map e =
                payload2 "verbose" (JStr ("network: " +:+ type e)))).
Proof.
  unfold socketLogs_map. split; [reflexivity|].
  split; [intros H; rewrite H; reflexivity|].
  split; [intros H; rewrite H; reflexivity|].
  split; [intros H; rewrite H; reflexivity|].
  split.
  - intros H. unfold socket_error_types in H. listed H; rewrite H; reflexivity.
  - intros H. unfold socket_types, socket_error_types in H. simpl in H.
    not_listed H. switch_cases. split.
    + intros m Hm. rewrite Hm. reflexivity.
    + intros Hs. rewrite Hs.
      rewrite append_empty_r. reflexivity.
Qed.

End Mappings.

(** ** Filters *)

Section FilterFacts.

Import Filters.
Local Open Scope list_scope.

Lemma rendered_sublist (f : gmap string bool) (l : list LogEntry) :
  sublist (rendered f l) l.
Proof.
  unfold rendered. induction l as [|e l IH]; simpl.
  - constructor.
  - destruct (enabled f (log_type e)); [apply sublist_skip | apply sublist_cons];
      exact IH.
Qed.

Lemma enabled_toggle_same (f : gmap string bool) (k : string) :
  enabled (toggleFilter f k) k = negb (enabled f k).
Proof. unfold enabled at 1, toggleFilter. rewrite lookup_insert_eq. reflexivity. Qed.

Lemma enabled_toggle_other (f : gmap string bool) (k ty : string) :
  ty ≠ k -> enabled (toggleFilter f k) ty = enabled f ty.
Proof.
  intros Hne. unfold enabled, toggleFilter.
  rewrite lookup_insert_ne; [reflexivity | congruence].
Qed.

Lemma enabled_toggle_twice (f : gmap string bool) (k ty : string) :
  enabled (toggleFilter (toggleFilter f k) k) ty = enabled f ty.
Proof.
  destruct (decide (ty = k)) as [->|Hne].
  - rewrite !enabled_toggle_same. apply negb_involutive.
  - rewrite !enabled_toggle_other by exact Hne. reflexivity.
Qed.

Lemma toggle_twice_defined (f : gmap string bool) (k : string) :
  is_Some (f !! k) -> toggleFilter (toggleFilter f k) k = f.
Proof.
  intros [b Hb]. unfold toggleFilter at 1.
  rewrite enabled_toggle_same, negb_involutive.
  unfold toggleFilter. rewrite insert_insert_eq.
  apply insert_id. unfold enabled. rewrite Hb. reflexivity.
Qed.

Lemma toggle_keeps_defined (f : gmap string bool) (k ty : string) :
  is_Some (f !! k) -> is_Some (toggleFilter f ty !! k).
Proof.
  intros Hk. unfold toggleFilter. destruct (decide (ty = k)) as [->|Hne].
  - rewrite lookup_insert_eq. eauto.
  - rewrite lookup_insert_ne by exact Hne. exact Hk.
Qed.

Lemma fold_toggles_defined (tys : list string) (k : string) :
  forall f, is_Some (f !! k) -> is_Some (fold_left toggleFilter tys f !! k).
Proof.
  induction tys as [|ty tys IH]; intros f Hk; simpl; [exact Hk|].
  apply IH. apply toggle_keeps_defined. exact Hk.
Qed.

Lemma initial_defined (k : string) : k ∈ kinds -> is_Some (initial !! k).
Proof.
  intros Hk. unfold kinds in Hk.
  repeat (apply elem_of_cons in Hk; destruct Hk as [-> | Hk];
          [vm_compute; eauto|]).
  apply elem_of_nil in Hk. contradiction.
Qed.

(** C7. Toggling a filter leaves the store as it was, so no stored entry
    is removed, changed or moved; what is rendered is a subsequence of the
    stored entries, and the toggle of [k] changes the inclusion of entries
    of kind [k] only; toggling [k] twice gives the rendered view there was
    before, and gives back the very filter state whenever [k] is a key of
    it, as each of the seven kinds is after any sequence of toggles. *)
Theorem toggle_filter_is_projection (a : App.app) (k : string) :
  App.st (App.toggleFilter k a) = App.st a
  /\ sublist (App.view (App.toggleFilter k a)) (logs (App.st a))
  /\ (forall e, log_type e ≠ k ->
        (e ∈ App.view (App.toggleFilter k a) <-> e ∈ App.view a))
  /\ App.view (App.toggleFilter k (App.toggleFilter k a)) = App.view a
  /\ App.st (App.toggleFilter k (App.toggleFilter k a)) = App.st a
  /\ (is_Some (App.filters a !! k) ->
        App.toggleFilter k (App.toggleFilter k a) = a)
  /\ (forall tys, k ∈ kinds ->
        toggleFilter (toggleFilter (toggles tys) k) k = toggles tys).
Proof.
  split; [reflexivity|].
  split; [apply rendered_sublist|].
  split.
  { intros e Hne. unfold App.view, App.toggleFilter, rendered. simpl.
    rewrite !list_elem_of_In, !filter_In.
    rewrite enabled_toggle_other by exact Hne. reflexivity. }
  split.
  { unfold App.view, App.toggleFilter, rendered. simpl.
    apply filter_ext. intros e. apply enabled_toggle_twice. }
  split; [reflexivity|].
  split.
  { intros Hk. destruct a as [se di s f]. unfold App.toggleFilter. simpl in *.
    rewrite toggle_twice_defined by exact Hk. reflexivity. }
  intros tys Hk. apply toggle_twice_defined.
  apply fold_toggles_defined. apply initial_defined. exact Hk.
Qed.

Lemma click_keeps_unfiltered (f : gmap string bool) (h : header) (k : string) :
  k ∈ unfiltered_kinds -> f !! k = Some true -> click f h !! k = Some true.
Proof.
  intros Hk Hf. unfold click, toggleFilter.
  rewrite lookup_insert_ne; [exact Hf|].
  unfold unfiltered_kinds in Hk.
  repeat (apply elem_of_cons in Hk; destruct Hk as [-> | Hk];
          [destruct h; discriminate|]).
  apply elem_of_nil in Hk. contradiction.
Qed.

Lemma fold_click_keeps_unfiltered (hs : list header) (k : string) :
  k ∈ unfiltered_kinds ->
  forall f, f !! k = Some true -> fold_left click hs f !! k = Some true.
Proof.
  intros Hk. induction hs as [|h hs IH]; intros f Hf; simpl; [exact Hf|].
  apply IH. apply click_keeps_unfiltered; assumption.
Qed.

(** C9. After any sequence of clicks on the four header filters (commands,
    APDUs, binary, verbose), the filters of error, warn and announcement
    are still true, so every stored entry of one of these kinds is in the
    rendered view. *)
Theorem unfiltered_kinds_always_rendered
    (hs : list header) (l : list LogEntry) (e : LogEntry) :
  e ∈ l -> log_type e ∈ unfiltered_kinds ->
  clicks hs !! log_type e = Some true /\ e ∈ rendered (clicks hs) l.
Proof.
  intros He Hk.
  assert (Hon : clicks hs !! log_type e = Some true).
  { unfold clicks. apply fold_click_keeps_unfiltered; [exact Hk|].
    unfold unfiltered_kinds in Hk.
    repeat (apply elem_of_cons in Hk; destruct Hk as [-> | Hk];
            [vm_compute; reflexivity|]).
    apply elem_of_nil in Hk. contradiction. }
  split; [exact Hon|].
  unfold rendered. rewrite list_elem_of_In, filter_In.
  split; [rewrite <- list_elem_of_In; exact He|].
  unfold enabled. rewrite Hon. reflexivity.
Qed.

End FilterFacts.

(** ** Binary64 division and [toFixed(1)] *)

Section ElapsedFacts.

Import SpecFloat.
Local Open Scope Z_scope.

Lemma iter_pos_invariant {A : Type} (f : A -> A) (P : A -> Prop) :
  (forall x, P x -> P (f x)) -> forall n x, P x -> P (iter_pos f n x).
Proof.
  intros Hf. induction n as [n IH|n IH|]; intros x Hx; simpl; auto.
Qed.

Lemma shr_1_bounds (mrs : shr_record) (M : Z) :
  0 <= shr_m mrs <= M -> 0 <= shr_m (shr_1 mrs) <= M.
Proof.
  destruct mrs as [m r s]. simpl.
  destruct m as [|[p|p|]|p]; simpl; lia.
Qed.

Lemma shr_record_of_loc_m (m : Z) (l : location) :
  shr_m (shr_record_of_loc m l) = m.
Proof. destruct l as [|[ | | ]]; reflexivity. Qed.

Lemma shr_1_halves (mrs : shr_record) (k : Z) :
  0 <= shr_m mrs < 2 ^ k -> 0 <= k ->
  0 <= shr_m (shr_1 mrs) < 2 ^ Z.max 0 (k - 1).
Proof.
  intros Hm Hk. destruct mrs as [m r s]. simpl in Hm.
  assert (Hpos : 0 < 2 ^ Z.max 0 (k - 1)) by (apply Z.pow_pos_nonneg; lia).
  destruct m as [|[p|p|]|p]; simpl; try lia.
  - assert (k <> 0) by (intros ->; simpl in Hm; lia).
    replace (Z.max 0 (k - 1)) with (k - 1) by lia.
    replace k with (Z.succ (k - 1)) in Hm by lia.
    rewrite Z.pow_succ_r in Hm by lia. lia.
  - assert (k <> 0) by (intros ->; simpl in Hm; lia).
    replace (Z.max 0 (k - 1)) with (k - 1) by lia.
    replace k with (Z.succ (k - 1)) in Hm by lia.
    rewrite Z.pow_succ_r in Hm by lia. lia.
Qed.

Lemma iter_shr_1_bounds (n : positive) : forall mrs k,
  0 <= shr_m mrs < 2 ^ k -> 0 <= k ->
  0 <= shr_m (iter_pos shr_1 n mrs) < 2 ^ Z.max 0 (k - Z.pos n).
Proof.
  induction n as [n IH|n IH|]; intros mrs k Hm Hk; simpl.
  - replace (Z.max 0 (k - Z.pos n~1))
      with (Z.max 0 (Z.max 0 (Z.max 0 (k - 1) - Z.pos n) - Z.pos n)) by lia.
    apply IH; [|lia]. apply IH; [|lia]. apply shr_1_halves; assumption.
  - replace (Z.max 0 (k - Z.pos n~0))
      with (Z.max 0 (Z.max 0 (k - Z.pos n) - Z.pos n)) by lia.
    apply IH; [|lia]. apply IH; assumption.
  - apply shr_1_halves; assumption.
Qed.

Lemma shr_bounds (mrs : shr_record) (e n k : Z) :
  0 <= shr_m mrs < 2 ^ k -> 0 <= k ->
  0 <= shr_m (fst (shr mrs e n)) < 2 ^ Z.max 0 (k - Z.max n 0)
  /\ snd (shr mrs e n) = e + Z.max n 0.
Proof.
  intros Hm Hk. unfold shr. destruct n as [|p|p]; cbn [fst snd].
  - replace (Z.max 0 (k - Z.max 0 0)) with k by lia. split; [exact Hm | lia].
  - split; [|lia]. replace (Z.max (Z.pos p) 0) with (Z.pos p) by lia.
    apply iter_shr_1_bounds; assumption.
  - replace (Z.max 0 (k - Z.max (Z.neg p) 0)) with k by lia.
    split; [exact Hm | lia].
Qed.

Lemma shr_fexp_bounds (m e : Z) (l : location) (k : Z) :
  0 <= m < 2 ^ k -> 0 <= k ->
  let n := Z.max (fexp 53 1024 (Zdigits2 m + e) - e) 0 in
  0 <= shr_m (fst (shr_fexp 53 1024 m e l)) < 2 ^ Z.max 0 (k - n)
  /\ snd (shr_fexp 53 1024 m e l) = e + n.
Proof.
  intros Hm Hk n. unfold shr_fexp.
  apply shr_bounds; [rewrite shr_record_of_loc_m; exact Hm | exact Hk].
Qed.

Lemma shr_fexp_le (m e : Z) (l : location) :
  0 <= m -> shr_m (fst (shr_fexp 53 1024 m e l)) <= m.
Proof.
  intros Hm. unfold shr_fexp, shr.
  destruct (fexp 53 1024 (Zdigits2 m + e) - e) as [|p|p]; cbn [fst];
    rewrite ?shr_record_of_loc_m; try lia.
  apply (iter_pos_invariant shr_1 (fun x => 0 <= shr_m x <= m));
    [intros x; apply shr_1_bounds | rewrite shr_record_of_loc_m; lia].
Qed.

Lemma round_nearest_even_bounds (m : Z) (l : location) :
  m <= round_nearest_even m l <= m + 1.
Proof.
  unfold round_nearest_even. destruct l as [|[ | | ]]; try lia.
  destruct (Z.even m); lia.
Qed.

Lemma digits2_pos_le (p : positive) : forall k,
  Z.pos p < 2 ^ k -> 0 <= k -> Z.pos (digits2_pos p) <= k.
Proof.
  induction p as [p IH|p IH|]; intros k Hp Hk; simpl.
  - assert (k <> 0) by (intros ->; simpl in Hp; lia).
    replace k with (Z.succ (k - 1)) in Hp by lia.
    rewrite Z.pow_succ_r in Hp by lia.
    specialize (IH (k - 1) ltac:(lia) ltac:(lia)). lia.
  - assert (k <> 0) by (intros ->; simpl in Hp; lia).
    replace k with (Z.succ (k - 1)) in Hp by lia.
    rewrite Z.pow_succ_r in Hp by lia.
    specialize (IH (k - 1) ltac:(lia) ltac:(lia)). lia.
  - assert (k <> 0) by (intros ->; simpl in Hp; lia). lia.
Qed.

Lemma Zdigits2_le (m k : Z) : 0 <= m < 2 ^ k -> 0 <= k -> 0 <= Zdigits2 m <= k.
Proof.
  intros Hm Hk. destruct m as [|p|p]; simpl; [lia | | lia].
  split; [lia|]. apply digits2_pos_le; lia.
Qed.

Lemma fexp_eq (e : Z) : fexp 53 1024 e = Z.max (e - 53) (-1074).
Proof. reflexivity. Qed.

(** Rounding a non-negative mantissa below [2^K] at exponent [ex], with
    [K + ex] within the exponent range, gives zero or a finite number. *)
Lemma binary_round_aux_finite (sx : bool) (mx ex : Z) (lx : location) (K : Z) :
  0 <= mx < 2 ^ K -> 0 <= K -> ex <= 971 -> K + ex <= 1023 ->
  binary_round_aux 53 1024 sx mx ex lx = S754_zero sx
  \/ exists m e,
       binary_round_aux 53 1024 sx mx ex lx = S754_finite sx m e
       /\ Z.pos m <= 2 ^ K
       /\ ex <= e <= Z.max ex (Z.max (K + ex - 52) (-1074)).
Proof.
  intros Hmx HK Hex Hsum. unfold binary_round_aux.
  pose proof (Zdigits2_le mx K Hmx HK) as Hd1.
  destruct (shr_fexp_bounds mx ex lx K Hmx HK) as [Hm1 He1].
  remember (Z.max (fexp 53 1024 (Zdigits2 mx + ex) - ex) 0) as n1 eqn:Hn1.
  destruct (shr_fexp 53 1024 mx ex lx) as [mrs1 e1]. simpl in Hm1, He1.
  pose proof (round_nearest_even_bounds (shr_m mrs1) (loc_of_shr_record mrs1))
    as Hr.
  remember (round_nearest_even (shr_m mrs1) (loc_of_shr_record mrs1)) as r.
  remember (Z.max 0 (K - n1)) as K1 eqn:HK1.
  assert (Hr2 : 0 <= r < 2 ^ (K1 + 1)).
  { rewrite Z.pow_add_r by lia. lia. }
  pose proof (Zdigits2_le r (K1 + 1) Hr2 ltac:(lia)) as Hd2.
  destruct (shr_fexp_bounds r e1 loc_Exact (K1 + 1) Hr2 ltac:(lia))
    as [Hm2 He2].
  pose proof (shr_fexp_le r e1 loc_Exact ltac:(lia)) as Hm2'.
  remember (Z.max (fexp 53 1024 (Zdigits2 r + e1) - e1) 0) as n2 eqn:Hn2.
  destruct (shr_fexp 53 1024 r e1 loc_Exact) as [mrs2 e2]. simpl in Hm2, He2, Hm2'.
  assert (Hle : 2 ^ Z.max 0 (K1 + 1 - n2) <= 2 ^ (K1 + 1))
    by (apply Z.pow_le_mono_r; lia).
  assert (Hle1 : 2 ^ K1 <= 2 ^ K) by (apply Z.pow_le_mono_r; lia).
  rewrite fexp_eq in Hn1, Hn2.
  destruct (shr_m mrs2) as [|m|m] eqn:Hm; [left; reflexivity | | lia].
  right. exists m, e2.
  destruct (Z.leb_spec e2 (1024 - 53)); [|lia].
  split; [reflexivity|]. split; lia.
Qed.

Lemma pos_iter_xO (d : positive) (p : positive) :
  Z.pos (Pos.iter xO p d) = Z.pos p * 2 ^ Z.pos d.
Proof.
  induction d as [|d IH] using Pos.peano_ind.
  - simpl. lia.
  - rewrite Pos.iter_succ, Pos2Z.inj_succ, Z.pow_succ_r by lia.
    rewrite Pos2Z.inj_xO, IH. lia.
Qed.

Lemma shl_align_spec (p : positive) (ex ex' : Z) :
  snd (shl_align p ex ex') = Z.min ex ex'
  /\ Z.pos (fst (shl_align p ex ex'))
     = Z.pos p * 2 ^ (ex - snd (shl_align p ex ex')).
Proof.
  unfold shl_align. destruct (ex' - ex) as [|d|d] eqn:Hd; cbn [fst snd].
  - split; [lia|]. rewrite Z.sub_diag. simpl. lia.
  - split; [lia|]. rewrite Z.sub_diag. simpl. lia.
  - split; [lia|]. rewrite pos_iter_xO. f_equal. f_equal. lia.
Qed.

(** The binary64 number of a positive integer below 2^53. *)
Lemma number_finite (z : Z) :
  0 < z < 2 ^ 53 ->
  Elapsed.number z = S754_zero false
  \/ exists m e,
       Elapsed.number z = S754_finite false m e
       /\ Z.pos m <= 2 ^ 105 /\ -52 <= e <= 53.
Proof.
  intros Hz. destruct z as [|p|p]; try lia.
  unfold Elapsed.number, binary_normalize, binary_round.
  pose proof (digits2_pos_le p 53 ltac:(lia) ltac:(lia)) as Hd.
  destruct (shl_align_spec p 0 (fexp 53 1024 (Z.pos (digits2_pos p) + 0)))
    as [He Hm].
  destruct (shl_align p 0 (fexp 53 1024 (Z.pos (digits2_pos p) + 0)))
    as [mz ez]. cbn [fst snd] in He, Hm.
  rewrite fexp_eq in He.
  assert (Hez : -52 <= ez <= 0) by lia.
  assert (Hpow : 0 < 2 ^ (0 - ez) <= 2 ^ 52).
  { split; [apply Z.pow_pos_nonneg; lia | apply Z.pow_le_mono_r; lia]. }
  assert (Hmz : 0 <= Z.pos mz < 2 ^ 105).
  { change (2 ^ 105) with (2 ^ 53 * 2 ^ 52). rewrite Hm. nia. }
  destruct (binary_round_aux_finite false (Z.pos mz) ez loc_Exact 105
              Hmz ltac:(lia) ltac:(lia) ltac:(lia))
    as [Hzero | (m & e & Hfin & Hmb & Heb)].
  - left. exact Hzero.
  - right. exists m, e. split; [exact Hfin|]. split; [exact Hmb | lia].
Qed.

(** [d / 1000] is zero or finite for a positive integer [d] below 2^53. *)
Lemma seconds_finite (d : Z) :
  0 < d < 2 ^ 53 ->
  (exists s, Elapsed.seconds d = S754_zero s)
  \/ exists s m e, Elapsed.seconds d = S754_finite s m e.
Proof.
  intros Hd. unfold Elapsed.seconds.
  change (Elapsed.number 1000) with (S754_finite false 8796093022208000 (-43)).
  destruct (number_finite d Hd) as [Hzero | (m1 & e1 & Hfin & Hm1 & He1)].
  - rewrite Hzero. left. eexists. reflexivity.
  - rewrite Hfin. unfold SFdiv, SFdiv_core_binary.
    change (Zdigits2 (Z.pos 8796093022208000)) with 53.
    assert (Hm1' : 0 <= Z.pos m1 < 2 ^ 106).
    { change (2 ^ 106) with (2 ^ 105 * 2). lia. }
    pose proof (Zdigits2_le (Z.pos m1) 106 Hm1' ltac:(lia)) as Hd1.
    assert (Hd1' : 1 <= Zdigits2 (Z.pos m1)) by (simpl; lia).
    remember (Z.min (fexp 53 1024 (Zdigits2 (Z.pos m1) + e1 - (53 + -43)))
                (e1 - -43)) as e' eqn:He'.
    rewrite fexp_eq in He'.
    remember (e1 - -43 - e') as s eqn:Hs.
    assert (Hs0 : 0 <= s <= 200) by lia.
    remember (match s with
              | 0 => Z.pos m1
              | Z.pos _ => Z.shiftl (Z.pos m1) s
              | Z.neg _ => 0
              end) as m' eqn:Hm'.
    assert (Hm'b : 0 <= m' < 2 ^ (106 + s)).
    { assert (m' = Z.pos m1 * 2 ^ s) as ->.
      { subst m'. destruct s as [|sp|sp]; [simpl; lia | | lia].
        apply Z.shiftl_mul_pow2. lia. }
      rewrite Z.pow_add_r by lia.
      assert (0 < 2 ^ s) by (apply Z.pow_pos_nonneg; lia). nia. }
    destruct (Z.div_eucl m' 8796093022208000) as [q r] eqn:Hdiv.
    assert (Hq : q = m' / 8796093022208000).
    { unfold Z.div. rewrite Hdiv. reflexivity. }
    assert (Hqb : 0 <= q < 2 ^ (106 + s)).
    { subst q. split; [apply Z.div_pos; lia|].
      apply Z.le_lt_trans with m'; [|lia].
      apply Z.div_le_upper_bound; lia. }
    destruct (binary_round_aux_finite (xorb false false) q e'
                (new_location 8796093022208000 r) (106 + s)
                Hqb ltac:(lia) ltac:(lia) ltac:(lia))
      as [Hzero | (m & e & Hres & _)].
    + left. eexists. exact Hzero.
    + right. exists (xorb false false), m, e. exact Hres.
Qed.

Lemma digit_length (r : Z) :
  0 <= r < 10 -> String.length (string_of_Z r) = 1%nat.
Proof.
  intros Hr.
  assert (Hcases : r = 0 \/ r = 1 \/ r = 2 \/ r = 3 \/ r = 4 \/ r = 5
                   \/ r = 6 \/ r = 7 \/ r = 8 \/ r = 9) by lia.
  repeat (destruct Hcases as [-> | Hcases]; [reflexivity|]).
  rewrite Hcases. reflexivity.
Qed.

Lemma tenths_nonneg (m : positive) (e : Z) : 0 <= Elapsed.tenths m e.
Proof.
  unfold Elapsed.tenths. destruct e as [|p|p]; [lia | |].
  - apply Z.mul_nonneg_nonneg; [lia|]. apply Z.pow_nonneg. lia.
  - apply Z.div_pos; [|apply Z.pow_pos_nonneg; lia].
    pose proof (Z.pow_nonneg 2 (Z.pos p)). lia.
Qed.

(** A zero or finite number is rendered with exactly one decimal. *)
Lemma toFixed1_one_decimal (x : spec_float) :
  (exists s, x = S754_zero s) \/ (exists s m e, x = S754_finite s m e) ->
  Elapsed.one_decimal (Elapsed.toFixed1 x).
Proof.
  intros [[s ->] | (s & m & e & ->)]; unfold Elapsed.one_decimal; simpl.
  - exists ""%string, 0, 0. repeat split; auto; lia.
  - pose proof (tenths_nonneg m e) as Hn.
    pose proof (Z.mod_pos_bound (Elapsed.tenths m e) 10 ltac:(lia)) as Hr.
    exists (if s then "-" else "")%string,
      (Elapsed.tenths m e / 10), (Elapsed.tenths m e mod 10).
    split; [destruct s; auto|].
    split; [apply Z.div_pos; lia|].
    split; [exact Hr|].
    split; [apply digit_length; exact Hr | reflexivity].
Qed.

End ElapsedFacts.

(** ** How near [toFixed(1)] of the quotient is to the elapsed time *)

Section ElapsedAccuracy.

Import SpecFloat.
Local Open Scope Z_scope.

Lemma digits2_pos_gt (p : positive) : Z.pos p < 2 ^ Z.pos (digits2_pos p).
Proof.
  induction p as [p IH|p IH|]; simpl digits2_pos.
  - rewrite Pos2Z.inj_succ, Z.pow_succ_r by lia. lia.
  - rewrite Pos2Z.inj_succ, Z.pow_succ_r by lia. lia.
  - simpl. lia.
Qed.

(** Rounding a mantissa that fits in 53 bits, known exactly, keeps it. *)
Lemma binary_round_aux_exact (sx : bool) (m : positive) (ex : Z) :
  Z.pos m < 2 ^ 53 -> -1074 <= ex <= 971 ->
  binary_round_aux 53 1024 sx (Z.pos m) ex loc_Exact = S754_finite sx m ex.
Proof.
  intros Hm Hex.
  pose proof (Zdigits2_le (Z.pos m) 53 ltac:(lia) ltac:(lia)) as Hd.
  assert (Hshr : shr_fexp 53 1024 (Z.pos m) ex loc_Exact
                 = (Build_shr_record (Z.pos m) false false, ex)).
  { unfold shr_fexp, shr. rewrite fexp_eq.
    destruct (Z.max (Zdigits2 (Z.pos m) + ex - 53) (-1074) - ex) as [|p|p] eqn:Hn;
      try reflexivity. lia. }
  unfold binary_round_aux. rewrite Hshr. cbn [shr_m loc_of_shr_record].
  cbn [round_nearest_even]. rewrite Hshr. cbn [shr_m].
  destruct (Z.leb_spec ex (1024 - 53)); [reflexivity | lia].
Qed.

(** The binary64 number of a positive integer below 2^53 is that integer. *)
Lemma number_exact (d : Z) :
  0 < d < 2 ^ 53 ->
  exists m e,
    Elapsed.number d = S754_finite false m e
    /\ -52 <= e <= 0 /\ Z.pos m = d * 2 ^ (- e) /\ Z.pos m < 2 ^ 53.
Proof.
  intros Hd. destruct d as [|p|p]; try lia.
  unfold Elapsed.number, binary_normalize, binary_round.
  pose proof (digits2_pos_le p 53 ltac:(lia) ltac:(lia)) as Hle.
  pose proof (digits2_pos_gt p) as Hgt.
  destruct (shl_align_spec p 0 (fexp 53 1024 (Z.pos (digits2_pos p) + 0)))
    as [He Hm].
  destruct (shl_align p 0 (fexp 53 1024 (Z.pos (digits2_pos p) + 0)))
    as [mz ez]. cbn [fst snd] in He, Hm.
  rewrite fexp_eq in He.
  assert (Hez : ez = Z.pos (digits2_pos p) - 53) by lia.
  assert (Hmz : Z.pos mz < 2 ^ 53).
  { rewrite Hm.
    replace (2 ^ 53) with (2 ^ Z.pos (digits2_pos p) * 2 ^ (0 - ez)).
    - apply Z.mul_lt_mono_pos_r; [apply Z.pow_pos_nonneg; lia | exact Hgt].
    - rewrite <- Z.pow_add_r by lia. f_equal. lia. }
  rewrite binary_round_aux_exact by (try exact Hmz; lia).
  exists mz, ez. split; [reflexivity|]. split; [lia|].
  split; [rewrite Hm; f_equal; f_equal; lia | exact Hmz].
Qed.

Lemma pow2_xO (n : positive) : 2 ^ Z.pos n~0 = 2 ^ Z.pos n * 2 ^ Z.pos n.
Proof.
  replace (Z.pos n~0) with (Z.pos n + Z.pos n) by lia.
  apply Z.pow_add_r; lia.
Qed.

Lemma pow2_xI (n : positive) :
  2 ^ Z.pos n~1 = 2 * (2 ^ Z.pos n * 2 ^ Z.pos n).
Proof.
  replace (Z.pos n~1) with (Z.succ (Z.pos n + Z.pos n)) by lia.
  rewrite Z.pow_succ_r, Z.pow_add_r by lia. reflexivity.
Qed.

(** Truncation: [N / D] lies between the mantissa and the mantissa plus
    one, and stays so when a bit is shifted out and [D] doubles. *)
Lemma shr_1_trunc (mrs : shr_record) (N D : Z) :
  0 < D -> 0 <= shr_m mrs ->
  shr_m mrs * D <= N < (shr_m mrs + 1) * D ->
  0 <= shr_m (shr_1 mrs)
  /\ shr_m (shr_1 mrs) * (2 * D) <= N < (shr_m (shr_1 mrs) + 1) * (2 * D).
Proof.
  intros HD Hm HN. destruct mrs as [m r s]. simpl in *.
  destruct m as [|[p|p|]|p]; simpl; try lia.
Qed.

Lemma iter_shr_1_trunc (n : positive) (N : Z) : forall mrs D,
  0 < D -> 0 <= shr_m mrs ->
  shr_m mrs * D <= N < (shr_m mrs + 1) * D ->
  0 <= shr_m (iter_pos shr_1 n mrs)
  /\ shr_m (iter_pos shr_1 n mrs) * (2 ^ Z.pos n * D) <= N
     < (shr_m (iter_pos shr_1 n mrs) + 1) * (2 ^ Z.pos n * D).
Proof.
  induction n as [n IH|n IH|]; intros mrs D HD Hm HN; simpl iter_pos.
  - assert (Hp : 0 < 2 ^ Z.pos n) by (apply Z.pow_pos_nonneg; lia).
    destruct (shr_1_trunc mrs N D HD Hm HN) as [H0 H1].
    destruct (IH _ (2 * D) ltac:(lia) H0 H1) as [H2 H3].
    destruct (IH _ (2 ^ Z.pos n * (2 * D)) ltac:(nia) H2 H3) as [H4 H5].
    split; [exact H4|].
    replace (2 ^ Z.pos n~1 * D)
      with (2 ^ Z.pos n * (2 ^ Z.pos n * (2 * D))); [exact H5|].
    rewrite pow2_xI. ring.
  - assert (Hp : 0 < 2 ^ Z.pos n) by (apply Z.pow_pos_nonneg; lia).
    destruct (IH _ D HD Hm HN) as [H2 H3].
    destruct (IH _ (2 ^ Z.pos n * D) ltac:(nia) H2 H3) as [H4 H5].
    split; [exact H4|].
    replace (2 ^ Z.pos n~0 * D)
      with (2 ^ Z.pos n * (2 ^ Z.pos n * D)); [exact H5|].
    rewrite pow2_xO. ring.
  - change (2 ^ 1) with 2. apply shr_1_trunc; assumption.
Qed.

Lemma shr_fexp_trunc (m e : Z) (l : location) (N D : Z) :
  0 < D -> 0 <= m -> m * D <= N < (m + 1) * D ->
  let n := Z.max (fexp 53 1024 (Zdigits2 m + e) - e) 0 in
  let M := shr_m (fst (shr_fexp 53 1024 m e l)) in
  0 <= M /\ M * (2 ^ n * D) <= N < (M + 1) * (2 ^ n * D).
Proof.
  intros HD Hm HN n M. unfold M, n, shr_fexp, shr.
  destruct (fexp 53 1024 (Zdigits2 m + e) - e) as [|p|p]; cbn [fst].
  - rewrite shr_record_of_loc_m. change (2 ^ Z.max 0 0) with 1.
    rewrite Z.mul_1_l. split; [exact Hm | exact HN].
  - replace (Z.max (Z.pos p) 0) with (Z.pos p) by lia.
    apply iter_shr_1_trunc; rewrite ?shr_record_of_loc_m; assumption.
  - rewrite shr_record_of_loc_m.
    replace (Z.max (Z.neg p) 0) with 0 by lia. change (2 ^ 0) with 1.
    rewrite Z.mul_1_l. split; [exact Hm | exact HN].
Qed.

(** Rounding a truncated quotient: the result is within one unit in the
    last place of [N / D], at an exponent bounded by the size of the
    mantissa. *)
Lemma binary_round_aux_near
    (sx : bool) (mx ex : Z) (lx : location) (K N D : Z) :
  0 <= mx < 2 ^ K -> 0 <= K -> ex <= 971 -> K + ex <= 1023 ->
  0 < D -> mx * D <= N < (mx + 1) * D ->
  exists e,
    ex <= e <= Z.max ex (Z.max (K + ex - 52) (-1074))
    /\ ((binary_round_aux 53 1024 sx mx ex lx = S754_zero sx
         /\ N < 2 ^ (e - ex) * D)
        \/ exists m,
             binary_round_aux 53 1024 sx mx ex lx = S754_finite sx m e
             /\ (Z.pos m - 1) * (2 ^ (e - ex) * D) <= N
                < (Z.pos m + 1) * (2 ^ (e - ex) * D)).
Proof.
  intros Hmx HK Hex Hsum HD HN. unfold binary_round_aux.
  pose proof (Zdigits2_le mx K Hmx HK) as Hd1.
  destruct (shr_fexp_bounds mx ex lx K Hmx HK) as [Hm1 He1].
  destruct (shr_fexp_trunc mx ex lx N D HD ltac:(lia) HN) as [_ Ht1].
  remember (Z.max (fexp 53 1024 (Zdigits2 mx + ex) - ex) 0) as n1 eqn:Hn1.
  destruct (shr_fexp 53 1024 mx ex lx) as [mrs1 e1]. cbn [fst snd] in *.
  pose proof (round_nearest_even_bounds (shr_m mrs1) (loc_of_shr_record mrs1))
    as Hr.
  remember (round_nearest_even (shr_m mrs1) (loc_of_shr_record mrs1)) as r.
  remember (Z.max 0 (K - n1)) as K1 eqn:HK1.
  assert (Hr2 : 0 <= r < 2 ^ (K1 + 1)).
  { rewrite Z.pow_add_r by lia. lia. }
  pose proof (Zdigits2_le r (K1 + 1) Hr2 ltac:(lia)) as Hd2.
  assert (HD1 : 0 < 2 ^ n1 * D).
  { apply Z.mul_pos_pos; [apply Z.pow_pos_nonneg; lia | exact HD]. }
  destruct (shr_fexp_bounds r e1 loc_Exact (K1 + 1) Hr2 ltac:(lia))
    as [_ He2].
  destruct (shr_fexp_trunc r e1 loc_Exact (r * (2 ^ n1 * D)) (2 ^ n1 * D)
              HD1 ltac:(lia) ltac:(lia)) as [HM Ht2].
  remember (Z.max (fexp 53 1024 (Zdigits2 r + e1) - e1) 0) as n2 eqn:Hn2.
  destruct (shr_fexp 53 1024 r e1 loc_Exact) as [mrs2 e2].
  cbn [fst snd] in *.
  rewrite fexp_eq in Hn1, Hn2.
  assert (Hp2 : 0 < 2 ^ n2) by (apply Z.pow_pos_nonneg; lia).
  assert (Hpow : 2 ^ (e2 - ex) * D = 2 ^ n2 * (2 ^ n1 * D)).
  { replace (e2 - ex) with (n2 + n1) by lia.
    rewrite Z.pow_add_r by lia. ring. }
  exists e2. split; [lia|]. rewrite Hpow.
  set (D1 := 2 ^ n1 * D) in *. set (P2 := 2 ^ n2) in *.
  assert (Hlo : shr_m mrs2 * P2 <= r).
  { apply Z.mul_le_mono_pos_r with D1; [exact HD1|]. lia. }
  assert (Hhi : r + 1 <= (shr_m mrs2 + 1) * P2).
  { assert (r < (shr_m mrs2 + 1) * P2); [|lia].
    apply Z.mul_lt_mono_pos_r with D1; [exact HD1|]. lia. }
  assert (Hup : N < (shr_m mrs2 + 1) * (P2 * D1)) by nia.
  assert (Hdn : (shr_m mrs2 - 1) * (P2 * D1) <= N) by nia.
  destruct (shr_m mrs2) as [|m|m] eqn:Hm; [| |lia].
  - left. split; [reflexivity | lia].
  - right. exists m.
    destruct (Z.leb_spec e2 (1024 - 53)); [|lia].
    split; [reflexivity | lia].
Qed.

(** [d / 1000] in binary64, for an integer [d] from 1000 to below 2^51,
    is a positive number [m * 2^e] with [e <= -10] that is within
    [2^e] of the quotient. *)
Lemma seconds_near (d : Z) :
  1000 <= d < 2 ^ 51 ->
  exists m e,
    Elapsed.seconds d = S754_finite false m e
    /\ e <= -10
    /\ 1000 * (Z.pos m - 1) <= d * 2 ^ (- e) < 1000 * (Z.pos m + 1).
Proof.
  intros Hd. unfold Elapsed.seconds.
  change (Elapsed.number 1000) with (S754_finite false 8796093022208000 (-43)).
  destruct (number_exact d) as (m1 & e1 & Hnum & He1 & Hm1 & Hm1b).
  { change (2 ^ 53) with (2 ^ 51 * 4). lia. }
  rewrite Hnum. unfold SFdiv, SFdiv_core_binary.
  change (Zdigits2 (Z.pos 8796093022208000)) with 53.
  assert (Hp1 : 0 < 2 ^ (- e1)) by (apply Z.pow_pos_nonneg; lia).
  assert (Hm1' : 0 <= Z.pos m1 < 2 ^ (51 - e1)).
  { split; [lia|]. rewrite Hm1.
    replace (51 - e1) with (51 + - e1) by lia. rewrite Z.pow_add_r by lia.
    apply Z.mul_lt_mono_pos_r; [exact Hp1 | lia]. }
  pose proof (Zdigits2_le (Z.pos m1) (51 - e1) Hm1' ltac:(lia)) as Hd1.
  assert (Hd1' : 1 <= Zdigits2 (Z.pos m1)) by (simpl; lia).
  remember (Z.min (fexp 53 1024 (Zdigits2 (Z.pos m1) + e1 - (53 + -43)))
              (e1 - -43)) as e' eqn:He'.
  rewrite fexp_eq in He'.
  assert (He'b : -114 <= e' <= -12) by lia.
  remember (e1 - -43 - e') as s eqn:Hs.
  assert (Hs0 : 0 <= s) by lia.
  remember (match s with
            | 0 => Z.pos m1
            | Z.pos _ => Z.shiftl (Z.pos m1) s
            | Z.neg _ => 0
            end) as m' eqn:Hm'.
  set (P := 2 ^ (- e')).
  assert (HP : 0 < P) by (apply Z.pow_pos_nonneg; lia).
  assert (Hm'e : m' = d * P * 2 ^ 43).
  { assert (m' = Z.pos m1 * 2 ^ s) as ->.
    { subst m'. destruct s as [|sp|sp]; [simpl; lia | | lia].
      apply Z.shiftl_mul_pow2. lia. }
    rewrite Hm1. unfold P. rewrite <- !Z.mul_assoc, <- !Z.pow_add_r by lia.
    f_equal. f_equal. lia. }
  destruct (Z.div_eucl m' 8796093022208000) as [q r] eqn:Hdiv.
  assert (Hq : q = m' / 8796093022208000).
  { unfold Z.div. rewrite Hdiv. reflexivity. }
  assert (Hqm : 8796093022208000 * q <= m' < 8796093022208000 * (q + 1)).
  { subst q. split.
    - apply Z.mul_div_le. lia.
    - rewrite Z.mul_add_distr_l, Z.mul_1_r.
      pose proof (Z.mod_pos_bound m' 8796093022208000 ltac:(lia)).
      pose proof (Z.div_mod m' 8796093022208000 ltac:(lia)). lia. }
  change 8796093022208000 with (1000 * 2 ^ 43) in Hqm.
  assert (Hq1000 : q * 1000 <= d * P < (q + 1) * 1000).
  { rewrite Hm'e in Hqm. change (2 ^ 43) with 8796093022208 in *. lia. }
  assert (Hq0 : 0 <= q).
  { assert (0 <= m') by (rewrite Hm'e; change (2 ^ 43) with 8796093022208; nia).
    subst q. apply Z.div_pos; lia. }
  assert (HqK : q < 2 ^ (42 - e')).
  { replace (42 - e') with (42 + - e') by lia. rewrite Z.pow_add_r by lia.
    fold P. change (2 ^ 42) with 4398046511104.
    change (2 ^ 51) with 2251799813685248 in Hd. nia. }
  destruct (binary_round_aux_near (xorb false false) q e'
              (new_location (1000 * 2 ^ 43) r) (42 - e') (d * P) 1000
              ltac:(lia) ltac:(lia) ltac:(lia) ltac:(lia) ltac:(lia) Hq1000)
    as (e & Heb & [[_ Hz] | (m & Hres & Hnear)]).
  - exfalso.
    assert (Hpe : 0 < 2 ^ (e - e')) by (apply Z.pow_pos_nonneg; lia).
    assert (Hle : 2 ^ (e - e') <= P).
    { unfold P. apply Z.pow_le_mono_r; lia. }
    nia.
  - exists m, e. change (1000 * 2 ^ 43) with 8796093022208000 in Hres.
    split; [exact Hres|]. split; [lia|].
    assert (Hpe : 0 < 2 ^ (e - e')) by (apply Z.pow_pos_nonneg; lia).
    assert (HPe : P = 2 ^ (e - e') * 2 ^ (- e)).
    { unfold P. rewrite <- Z.pow_add_r by lia. f_equal. lia. }
    rewrite HPe in Hnear.
    assert (Hpt : 0 < 2 ^ (- e)) by (apply Z.pow_pos_nonneg; lia).
    set (T := 2 ^ (- e)) in *. set (Q := 2 ^ (e - e')) in *.
    split.
    + apply Z.mul_le_mono_pos_l with Q; [exact Hpe|]. lia.
    + apply Z.mul_lt_mono_pos_l with Q; [exact Hpe|]. lia.
Qed.

(** The tenths [toFixed(1)] prints for such a number are a nearest
    integer to [d / 100]. *)
Lemma tenths_near (d : Z) (m : positive) (e : Z) :
  e <= -10 ->
  1000 * (Z.pos m - 1) <= d * 2 ^ (- e) < 1000 * (Z.pos m + 1) ->
  -50 <= 100 * Elapsed.tenths m e - d <= 50.
Proof.
  intros He Hnear. destruct e as [|p|p]; try lia.
  unfold Elapsed.tenths. change (- Z.neg p) with (Z.pos p) in Hnear.
  assert (HT : 1024 <= 2 ^ Z.pos p).
  { change 1024 with (2 ^ 10). apply Z.pow_le_mono_r; lia. }
  rewrite Z.pow_add_r by lia. change (2 ^ 1) with 2.
  set (T := 2 ^ Z.pos p) in *.
  set (n := (20 * Z.pos m + T) / (T * 2)).
  assert (Hn : (T * 2) * n <= 20 * Z.pos m + T < (T * 2) * (n + 1)).
  { unfold n. split.
    - apply Z.mul_div_le. lia.
    - rewrite Z.mul_add_distr_l, Z.mul_1_r.
      pose proof (Z.mod_pos_bound (20 * Z.pos m + T) (T * 2) ltac:(lia)).
      pose proof (Z.div_mod (20 * Z.pos m + T) (T * 2) ltac:(lia)). lia. }
  split.
  - destruct (Z_le_gt_dec (-50) (100 * n - d)) as [|Hgt]; [assumption|].
    exfalso. assert (T * (2 * d - 200 * n - 100) >= 1024 * 2) by nia. nia.
  - destruct (Z_le_gt_dec (100 * n - d) 50) as [|Hgt]; [assumption|].
    exfalso. assert (T * (200 * n - 2 * d - 100) >= 1024 * 2) by nia. nia.
Qed.

Lemma append_assoc (a b c : string) : (a +:+ b) +:+ c = a +:+ (b +:+ c).
Proof.
  induction a as [|x a IH]; [reflexivity|].
  change (String x ((a +:+ b) +:+ c) = String x (a +:+ (b +:+ c))).
  rewrite IH. reflexivity.
Qed.

(** The elapsed time from one second on, below 2^51 ms: the text is the
    nearest tenth of a second. *)
Lemma delta_nearest_tenth (d : Z) :
  1000 <= d < 2 ^ 51 ->
  exists n,
    Elapsed.delta d
    = string_of_Z (n / 10) +:+ "." +:+ string_of_Z (n mod 10) +:+ "s"
    /\ 0 <= n /\ -50 <= 100 * n - d <= 50
    /\ (d mod 100 <> 50 -> n = (d + 50) / 100).
Proof.
  intros Hd. destruct (seconds_near d Hd) as (m & e & Hsec & He & Hnear).
  exists (Elapsed.tenths m e).
  pose proof (tenths_near d m e He Hnear) as Hn.
  split; [|split; [apply tenths_nonneg|]; split; [exact Hn|]].
  2:{ intros Htie. apply (Z.div_unique _ _ _ (d + 50 - 100 * Elapsed.tenths m e)); [|lia].
      left. pose proof (Z.div_mod d 100 ltac:(lia)) as Hdm.
      pose proof (Z.mod_pos_bound d 100 ltac:(lia)). lia. }
  unfold Elapsed.delta. destruct (Z.ltb_spec d 1000); [lia|].
  rewrite Hsec. unfold Elapsed.toFixed1.
  change ("" +:+ ?x) with x. rewrite !append_assoc. reflexivity.
Qed.

(** The text of an elapsed time, in both ranges. *)
Lemma delta_rendering (d : Z) :
  (d < 1000 -> Elapsed.delta d = string_of_Z d +:+ "ms")
  /\ (1000 <= d < 2 ^ 51 ->
      exists n,
        Elapsed.delta d
        = string_of_Z (n / 10) +:+ "." +:+ string_of_Z (n mod 10) +:+ "s"
        /\ 0 <= n /\ -50 <= 100 * n - d <= 50
        /\ (d mod 100 <> 50 -> n = (d + 50) / 100)).
Proof.
  split.
  - intros Hd. unfold Elapsed.delta.
    destruct (Z.ltb_spec d 1000) as [_|Hge]; [reflexivity | lia].
  - apply delta_nearest_tenth.
Qed.

End ElapsedAccuracy.

(** ** The dispatcher and the error path *)

Section DispatcherFacts.

Import App.
Local Open Scope list_scope.

Lemma addLog_logs (now : Z) (p : payload) (s : store) :
  exists e, logs (addLog now p s) = logs s ++ [e]
            /\ entry_payload e = p /\ log_id e = (id s + 1)%N
            /\ log_date e = now.
Proof.
  eexists. split; [reflexivity|]. destruct p. repeat split.
Qed.

Lemma fold_addLog_logs (now : Z) (ps : list payload) : forall s,
  exists new, logs (fold_left (fun acc p => addLog now p acc) ps s)
              = logs s ++ new
              /\ map entry_payload new = ps.
Proof.
  induction ps as [|p ps IH]; intros s; simpl.
  - exists []. rewrite List.app_nil_r. split; reflexivity.
  - destruct (IH (addLog now p s)) as (new & Hl & Hm).
    destruct (addLog_logs now p s) as (e & He & Hp & _).
    exists (e :: new). rewrite Hl, He, <- List.app_assoc. simpl.
    rewrite Hp, Hm. split; reflexivity.
Qed.

(** C1, as the code has it.  "Send" is rendered only while [commandSub] is
    null, so the buttons cannot reach [onSendCommand] during an execution;
    [onSendCommand] itself does nothing when no command is selected or no
    transport is active, and in every other state, with or without an
    execution in flight, it appends the invocation entry and one entry per
    value and makes a new subscription beside the open ones. *)
Theorem send_is_gated_by_rendering_only (now : Z) (a : app) :
  (send_rendered a = true -> commandSub (disp a) = None)
  /\ (selectedCommand (disp a) = None \/ transport (sess a) = None ->
        onSendCommand now a = a)
  /\ (forall c t,
        selectedCommand (disp a) = Some c -> transport (sess a) = Some t ->
        (exists new,
           logs (st (onSendCommand now a)) = logs (st a) ++ new
           /\ map entry_payload new = invocation c (commandValue (disp a)))
        /\ commandSub (disp (onSendCommand now a)) = Some (next_token (disp a))
        /\ subscriptions (disp (onSendCommand now a))
           = subscriptions (disp a) ++ [Exec (next_token (disp a)) c t now]).
Proof.
  split; [|split].
  - unfold send_rendered. intros H.
    apply andb_prop in H as [_ H].
    destruct (commandSub (disp a)); [discriminate | reflexivity].
  - unfold onSendCommand. intros [H | H]; rewrite H; [reflexivity|].
    destruct (selectedCommand (disp a)); reflexivity.
  - intros c t Hc Ht. unfold onSendCommand. rewrite Hc, Ht.
    split; [exact (fold_addLog_logs now _ (st a))|]. split; reflexivity.
Qed.

(** C6. When the execution of subscription [tok] completes at clock
    reading [now], the store gains one last entry of kind command whose
    text is the command's id, " completed in ", the elapsed time and a
    full stop, and [commandSub] is null.  The elapsed time [d] is rendered
    as its decimal digits and "ms" below 1000 and as [(d / 1000).toFixed(1)]
    and "s" from 1000 on, which for a difference of clock readings (below
    2^53) is a number with exactly one decimal.  Below 2^51 ms that number
    is [n / 10] for an integer [n] with [|100 n - d| <= 50]: the seconds
    rounded to the nearest tenth, which is [(d + 50) / 100] tenths unless
    [d] lies exactly halfway between two tenths; 1500 gives "1.5s". *)
Theorem completion_entry_elapsed (now : Z) (tok : nat) (x : execution) (a : app) :
  subscription tok (disp a) = Some x ->
  let d := (now - startTime x)%Z in
  (exists e,
     logs (st (execution_complete now tok a)) = logs (st a) ++ [e]
     /\ log_type e = "command"
     /\ log_text e =
          JStr (cmd_id (exec_command x) +:+ " completed in " +:+
                Elapsed.delta d +:+ "."))
  /\ commandSub (disp (execution_complete now tok a)) = None
  /\ ((d < 1000)%Z -> Elapsed.delta d = string_of_Z d +:+ "ms")
  /\ ((1000 <= d)%Z ->
        Elapsed.delta d = Elapsed.toFixed1 (Elapsed.seconds d) +:+ "s")
  /\ ((1000 <= d < 2 ^ 53)%Z ->
        Elapsed.one_decimal (Elapsed.toFixed1 (Elapsed.seconds d)))
  /\ ((1000 <= d < 2 ^ 51)%Z ->
        exists n,
          Elapsed.delta d
          = string_of_Z (n / 10) +:+ "." +:+ string_of_Z (n mod 10) +:+ "s"
          /\ (0 <= n)%Z /\ (-50 <= 100 * n - d <= 50)%Z
          /\ ((d mod 100)%Z <> 50%Z -> n = ((d + 50) / 100)%Z))
  /\ Elapsed.delta 1500 = "1.5s".
Proof.
  intros Hx d. unfold execution_complete. rewrite Hx. simpl.
  split; [eexists; split; [reflexivity|]; split; reflexivity|].
  split; [reflexivity|].
  split.
  { intros Hd. unfold Elapsed.delta.
    destruct (Z.ltb_spec d 1000); [reflexivity | lia]. }
  split.
  { intros Hd. unfold Elapsed.delta.
    destruct (Z.ltb_spec d 1000); [lia | reflexivity]. }
  split.
  { intros Hd. apply toFixed1_one_decimal, seconds_finite. lia. }
  split; [|vm_compute; reflexivity].
  intros Hd. apply delta_nearest_tenth. exact Hd.
Qed.

(** C10, as the code has it.  Each of the four places that pass an error
    to [addLogError] (open failure, dependency-resolution failure, APDU
    exchange failure, execution error) appends one entry of kind error
    whose text is the name and ": " when the name is truthy and not
    "Error", and nothing otherwise, followed by the message when it is
    truthy and by the error itself as a string otherwise. *)
Theorem error_entry_text (now : Z) (e : jsval) (a : app) :
  let entry :=
    Entry (id (st a) + 1) now "error" (JStr (truthy_name_error_text e))
      JUndefined in
  error_text e = truthy_name_error_text e
  /\ logs (st (open_failed now e a)) = logs (st a) ++ [entry]
  /\ logs (st (resolveDependencies_failed now e a)) = logs (st a) ++ [entry]
  /\ logs (st (onSendApdu_failed now e a)) = logs (st a) ++ [entry]
  /\ (forall tok, is_Some (subscription tok (disp a)) ->
        logs (st (execution_error now tok e a)) = logs (st a) ++ [entry]).
Proof.
  assert (Ht : error_text e = truthy_name_error_text e).
  { unfold error_text, truthy_name_error_text, js_and, js_or.
    destruct e as [| |[|]|s|n m str]; simpl; try reflexivity.
    - destruct s; reflexivity.
    - destruct (truthy n) eqn:En, (truthy m) eqn:Em; simpl;
        rewrite ?En, ?Em; reflexivity. }
  simpl. unfold open_failed, resolveDependencies_failed, onSendApdu_failed,
    execution_error, addLogError. simpl. rewrite Ht.
  split; [reflexivity|]. repeat split.
  intros tok [x Hx]. rewrite Hx. reflexivity.
Qed.

End DispatcherFacts.

(** ** The transport session *)

Section SessionFacts.

Import Session.
Local Open Scope list_scope.

Lemma mem_spec (t : handle) (l : list handle) : mem t l = true <-> t ∈ l.
Proof.
  unfold mem. rewrite existsb_exists, list_elem_of_In. split.
  - intros (x & Hx & Heq). apply Nat.eqb_eq in Heq. subst. exact Hx.
  - intros Hin. exists t. split; [exact Hin | apply Nat.eqb_refl].
Qed.

Lemma mem_false (t : handle) (l : list handle) : mem t l = false <-> t ∉ l.
Proof.
  rewrite <- mem_spec. destruct (mem t l); split; intros H;
    try reflexivity; try discriminate; try congruence.
Qed.

Lemma elem_of_without (x t : handle) (l : list handle) :
  x ∈ without t l <-> x ∈ l /\ x ≠ t.
Proof.
  unfold without. rewrite !list_elem_of_In, filter_In.
  rewrite negb_true_iff, Nat.eqb_neq. reflexivity.
Qed.

Lemma render_transport (old new : session) :
  transport (render old new) = transport new.
Proof. reflexivity. Qed.

Lemma render_leftTransports (old new : session) :
  leftTransports (render old new) = leftTransports new.
Proof. reflexivity. Qed.

Lemma reachable_run (evs : list event) : forall s,
  reachable s -> possible s evs = true -> reachable (run s evs).
Proof.
  induction evs as [|ev evs IH]; intros s Hs Hp; simpl in *; [exact Hs|].
  apply andb_prop in Hp as [He Hp].
  apply IH; [|exact Hp]. apply reachable_step; assumption.
Qed.

(** One step keeps the active handle out of the backgrounded list. *)
Lemma exclusive_step (s : session) (ev : event) :
  exclusive s -> enabled s ev = true -> exclusive (react s ev).
Proof.
  intros Hex Hen h. unfold react. rewrite render_transport, render_leftTransports.
  destruct ev as [|t| | | |t|t|t]; simpl in *.
  - discriminate.
  - intros [= <-]. apply andb_prop in Hen as [Hen _].
    apply andb_prop in Hen as [_ Hen].
    apply negb_true_iff, mem_false in Hen. exact Hen.
  - apply Hex.
  - unfold onLeaveTransport. destruct (transport s) eqn:Ht; simpl;
      rewrite ?Ht; discriminate.
  - unfold onClose. destruct (transport s) eqn:Ht; simpl; rewrite ?Ht.
    + intros [= <-]. apply Hex. exact Ht.
    + discriminate.
  - intros [= <-]. rewrite elem_of_without. intros [_ Hne]. congruence.
  - apply Hex.
  - unfold disconnected. destruct (decide (transport s = Some t)); simpl.
    + discriminate.
    + intros Ht. rewrite elem_of_without. intros [Hin _].
      exact (Hex h Ht Hin).
Qed.

Lemma reachable_exclusive (s : session) : reachable s -> exclusive s.
Proof.
  induction 1 as [|s ev Hs IH Hen].
  - intros h Hh. discriminate.
  - apply exclusive_step; assumption.
Qed.

(** C2, as the code has it.  In every state reached through the rendered
    buttons and the transport events, no handle is both the active
    transport and in [leftTransports].  A handle stops being the active
    one by leave, which puts it in [leftTransports]; by its own disconnect
    notification, after which it is in neither and its listener is gone;
    or by the re-use of a backgrounded handle while it is active, which
    replaces it: it is then not in [leftTransports] and no [close()] was
    called on it by the step.  The one other step that ends its being
    active is an [open] that resolves with another handle meanwhile. *)
Theorem active_handle_exclusive_and_accounted (s : session) :
  reachable s ->
  exclusive s
  /\ forall ev h,
       enabled s ev = true -> transport s = Some h ->
       transport (react s ev) <> Some h ->
       (ev = ClickLeave /\ h ∈ leftTransports (react s ev))
       \/ (ev = Disconnect h
           /\ (h ∉ leftTransports (react s ev))
           /\ (h ∉ listening (react s ev)))
       \/ (exists t, t <> h /\ ev = ClickReuse t
             /\ transport (react s ev) = Some t
             /\ (h ∉ leftTransports (react s ev))
             /\ closed (react s ev) = closed s)
       \/ (exists t, t <> h /\ ev = OpenResolved t).
Proof.
  intros Hs. pose proof (reachable_exclusive s Hs) as Hex.
  split; [exact Hex|].
  intros ev h Hen Ht Hgone. unfold react in *.
  rewrite render_transport in Hgone. rewrite !render_leftTransports.
  destruct ev as [|t| | | |t|t|t]; simpl in *.
  - rewrite Ht in Hen. discriminate.
  - right. right. right. exists t. split; [congruence | reflexivity].
  - congruence.
  - left. split; [reflexivity|]. unfold onLeaveTransport. rewrite Ht. simpl.
    apply elem_of_app. right. apply list_elem_of_singleton. reflexivity.
  - unfold onClose in Hgone. rewrite Ht in Hgone. simpl in Hgone. congruence.
  - right. right. left. exists t. split; [congruence|].
    split; [reflexivity|]. split; [reflexivity|].
    split; [|reflexivity].
    rewrite elem_of_without. intros [Hin _]. exact (Hex h Ht Hin).
  - congruence.
  - unfold disconnected in *.
    destruct (decide (transport s = Some t)) as [Heq|Hne]; simpl in *.
    + right. left. assert (t = h) as -> by congruence.
      split; [reflexivity|]. split; [apply Hex; exact Ht|].
      rewrite elem_of_without. intros [_ Hn]. congruence.
    + congruence.
Qed.

(** From a state whose [onLeaveTransport] closed over an empty list, as
    after the first [open], leaving and re-using gives the state back. *)
Lemma leave_reuse_when_closure_current (s : session) (h : handle) :
  transport s = Some h -> leftTransports s = [] ->
  onLeave_leftTransports s = [] ->
  transport (react s ClickLeave) = None
  /\ leftTransports (react s ClickLeave) = [h]
  /\ transport (react (react s ClickLeave) (ClickReuse h)) = Some h
  /\ leftTransports (react (react s ClickLeave) (ClickReuse h)) = [].
Proof.
  intros Ht Hl Hc. unfold react, render, onLeaveTransport; simpl.
  unfold onLeaveTransport. rewrite Ht, Hc. simpl.
  rewrite Nat.eqb_refl. simpl. repeat split.
Qed.

(** The scenario of the first handle: open, leave, re-use. *)
Lemma first_handle_leave_reuse (h : handle) :
  let s := run Session.init [ClickOpen; OpenResolved h] in
  transport s = Some h /\ leftTransports s = []
  /\ transport (react s ClickLeave) = None
  /\ leftTransports (react s ClickLeave) = [h]
  /\ transport (react (react s ClickLeave) (ClickReuse h)) = Some h
  /\ leftTransports (react (react s ClickLeave) (ClickReuse h)) = [].
Proof.
  intros s. split; [reflexivity|]. split; [reflexivity|].
  apply (leave_reuse_when_closure_current s h); reflexivity.
Qed.

(** C8 at the state reached by opening handle 1, leaving it, opening
    handle 2 and the disconnect of handle 1: handle 2 is active and
    [leftTransports] is empty, yet leave gives [[1; 2]], because
    [onLeaveTransport] still holds the list of the render in which handle
    2 became active, and re-using handle 2 then leaves [[1]]. *)
Lemma leave_uses_stale_leftTransports :
  let evs := [ClickOpen; OpenResolved 1; ClickLeave; ClickOpen;
              OpenResolved 2; Disconnect 1] in
  let s := run Session.init evs in
  possible Session.init (evs ++ [ClickLeave; ClickReuse 2]) = true
  /\ transport s = Some 2 /\ leftTransports s = []
  /\ transport (react s ClickLeave) = None
  /\ leftTransports (react s ClickLeave) = [1; 2]
  /\ transport (react (react s ClickLeave) (ClickReuse 2)) = Some 2
  /\ leftTransports (react (react s ClickLeave) (ClickReuse 2)) = [1].
Proof. vm_compute. repeat split. Qed.

(** C2 fails where a backgrounded handle is re-used while another one is
    active: after opening 1, leaving it and opening 2, the click on
    "Re-use" for 1 makes 1 active; 2 is then neither active nor in
    [leftTransports], [close()] was never called on it and its disconnect
    listener is still attached. *)
Lemma reuse_drops_active_handle :
  let evs := [ClickOpen; OpenResolved 1; ClickLeave; ClickOpen;
              OpenResolved 2] in
  let s := run Session.init evs in
  reachable s /\ enabled s (ClickReuse 1) = true
  /\ transport s = Some 2
  /\ transport (react s (ClickReuse 1)) = Some 1
  /\ mem 2 (leftTransports (react s (ClickReuse 1))) = false
  /\ mem 2 (closed (react s (ClickReuse 1))) = false
  /\ mem 2 (listening (react s (ClickReuse 1))) = true.
Proof.
  split.
  - apply reachable_run; [apply reachable_init | vm_compute; reflexivity].
  - vm_compute. repeat split.
Qed.

End SessionFacts.

(** ** The statements at concrete inputs *)

Section Instances.

Import App.
Local Open Scope list_scope.

(** An unmapped device log: nothing emitted, one console line. *)
Lemma device_log_classification_witness :
  let log := Raw "usb-detect" (JStr "plugged") JUndefined in
  (type log ∉ device_types)
  /\ emitted_device log = []
  /\ console_device log = ["(unhandled) usb-detect: plugged"].
Proof.
  intros log.
  assert (H : type log ∉ device_types).
  { unfold device_types, log. simpl. intros H.
    repeat (apply elem_of_cons in H; destruct H as [H | H];
            [discriminate|]).
    apply elem_of_nil in H. exact H. }
  split; [exact H|].
  destruct (device_log_classification log) as [Hdrop _].
  destruct (Hdrop H) as (He & _ & Hc).
  split; [exact He | exact Hc].
Defined.

(** A socket error and an event of a type without a case. *)
Lemma socket_event_classification_witness :
  let e := Raw "socket-error" (JStr "timeout") JUndefined in
  type e ∈ socket_error_types
  /\ socketLogs_map e = payload2 "error" (JStr "socket-error timeout").
Proof.
  intros e.
  assert (H : type e ∈ socket_error_types).
  { unfold socket_error_types, e. simpl.
    apply elem_of_cons. right. apply elem_of_cons. right.
    apply elem_of_cons. left. reflexivity. }
  split; [exact H|].
  destruct (socket_event_classification e) as (_ & _ & _ & _ & Herr & _).
  exact (Herr H).
Defined.

(** Toggling the command filter twice from the first render. *)
Lemma toggle_filter_is_projection_witness :
  is_Some (filters (init 0) !! "command")
  /\ toggleFilter "command" (toggleFilter "command" (init 0)) = init 0.
Proof.
  assert (H : is_Some (filters (init 0) !! "command")).
  { exists true. vm_compute. reflexivity. }
  split; [exact H|].
  destruct (toggle_filter_is_projection (init 0) "command")
    as (_ & _ & _ & _ & _ & Hinv & _).
  exact (Hinv H).
Defined.

(** The announcement stays rendered after clicks on the header filters. *)
Lemma unfiltered_kinds_always_rendered_witness :
  let e := Entry 1 0 "announcement" (JStr announcement) JUndefined in
  let hs := [Filters.Commands; Filters.Verbose; Filters.Commands] in
  e ∈ [e] /\ log_type e ∈ Filters.unfiltered_kinds
  /\ e ∈ Filters.rendered (Filters.clicks hs) [e].
Proof.
  intros e hs.
  assert (He : e ∈ [e]) by (apply list_elem_of_singleton; reflexivity).
  assert (Hk : log_type e ∈ Filters.unfiltered_kinds).
  { unfold Filters.unfiltered_kinds, e. simpl.
    apply elem_of_cons. right. apply elem_of_cons. right.
    apply elem_of_cons. left. reflexivity. }
  split; [exact He|]. split; [exact Hk|].
  exact (proj2 (unfiltered_kinds_always_rendered hs [e] e He Hk)).
Defined.

(** Sending once more in the state [running]. *)
Lemma send_is_gated_by_rendering_only_witness :
  selectedCommand (disp running) = Some ping
  /\ transport (sess running) = Some 1
  /\ subscriptions (disp (onSendCommand 20 running))
     = subscriptions (disp running) ++ [Exec 1 ping 1 20].
Proof.
  assert (Hc : selectedCommand (disp running) = Some ping) by reflexivity.
  assert (Ht : transport (sess running) = Some 1) by reflexivity.
  split; [exact Hc|]. split; [exact Ht|].
  destruct (send_is_gated_by_rendering_only 20 running) as (_ & _ & Hsend).
  destruct (Hsend ping 1 Hc Ht) as (_ & _ & Hsubs).
  exact Hsubs.
Defined.

(** C1 fails in the state [running]: [commandSub] holds the subscription
    of the execution in flight, and [onSendCommand] appends an entry and
    makes a second subscription. *)
Lemma send_while_running_is_not_refused :
  commandSub (disp running) = Some 0
  /\ length (subscriptions (disp running)) = 1
  /\ length (logs (st (onSendCommand 20 running)))
     = S (length (logs (st running)))
  /\ length (subscriptions (disp (onSendCommand 20 running))) = 2
  /\ commandSub (disp (onSendCommand 20 running)) = Some 1.
Proof. vm_compute. repeat split. Qed.

(** The execution of [running], started at 10, completes at 1510. *)
Lemma completion_entry_elapsed_witness :
  subscription 0 (disp running) = Some (Exec 0 ping 1 10)
  /\ exists e,
       logs (st (execution_complete 1510 0 running))
         = logs (st running) ++ [e]
       /\ log_type e = "command"
       /\ log_text e =
            JStr (cmd_id ping +:+ " completed in " +:+
                  Elapsed.delta (1510 - 10) +:+ ".").
Proof.
  assert (H : subscription 0 (disp running) = Some (Exec 0 ping 1 10))
    by reflexivity.
  split; [exact H|].
  exact (proj1 (completion_entry_elapsed 1510 0 (Exec 0 ping 1 10) running H)).
Defined.

(** An execution error of [running] with a named error. *)
Lemma error_entry_text_witness :
  let e := JObj (JStr "TransportError") (JStr "device busy")
             "TransportError: device busy" in
  is_Some (subscription 0 (disp running))
  /\ logs (st (execution_error 30 0 e running))
     = logs (st running)
       ++ [Entry (id (st running) + 1) 30 "error"
             (JStr (truthy_name_error_text e)) JUndefined].
Proof.
  intros e.
  assert (H : is_Some (subscription 0 (disp running))).
  { exists (Exec 0 ping 1 10). reflexivity. }
  split; [exact H|].
  destruct (error_entry_text 30 e running) as (_ & _ & _ & _ & Hexec).
  exact (Hexec 0 H).
Defined.

(** C10 fails for an error whose name is the empty string: it has a name
    other than "Error", and the text has no prefix. *)
Lemma empty_name_gets_no_prefix :
  let e := JObj (JStr "") (JStr "boom") ": boom" in
  has_property (get_name e) = true
  /\ strict_neq_str (get_name e) "Error" = true
  /\ described_error_text e = ": boom"
  /\ error_text e = "boom"
  /\ map log_text (logs (st (onSendApdu_failed 5 e (init 0))))
     = [JStr announcement; JStr "boom"].
Proof. vm_compute. repeat split. Qed.

(** The first handle, active and then left. *)
Lemma active_handle_exclusive_and_accounted_witness :
  let s := Session.run Session.init [ClickOpen; OpenResolved 1] in
  reachable s
  /\ exclusive s
  /\ 1 ∈ leftTransports (react s ClickLeave).
Proof.
  intros s.
  assert (Hs : reachable s).
  { apply reachable_run; [apply reachable_init | reflexivity]. }
  split; [exact Hs|].
  destruct (active_handle_exclusive_and_accounted s Hs) as [Hex Hacc].
  split; [exact Hex|].
  assert (Hgone : transport (react s ClickLeave) <> Some 1) by discriminate.
  destruct (Hacc ClickLeave 1 eq_refl eq_refl Hgone)
    as [[_ Hin] | [[Hev _] | [(t & _ & Hev & _) | (t & _ & Hev)]]];
    [exact Hin | discriminate Hev ..].
Defined.

End Instances.

(** ** The merged stream in arrival order *)

Section StreamFacts.

Import Stream.
Local Open Scope list_scope.

Lemma arrive_logs (s : store) (tev : Z * source_event) :
  exists new, logs (arrive s tev) = logs s ++ new
              /\ map entry_payload new = emitted (snd tev).
Proof. unfold arrive, subscribe_addLog. apply fold_addLog_logs. Qed.

Lemma feed_logs (evs : list (Z * source_event)) : forall s,
  exists new, logs (feed s evs) = logs s ++ new
              /\ map entry_payload new
                 = flat_map (fun tev => emitted (snd tev)) evs.
Proof.
  induction evs as [|tev evs IH]; intros s; simpl.
  - exists []. rewrite List.app_nil_r. split; reflexivity.
  - destruct (arrive_logs s tev) as (n1 & H1 & P1).
    destruct (IH (arrive s tev)) as (n2 & H2 & P2).
    exists (n1 ++ n2). rewrite H2, H1, <- List.app_assoc.
    split; [reflexivity|]. rewrite map_app, P1, P2. reflexivity.
Qed.

Lemma socket_in_order (evs : list (Z * source_event)) :
  sublist (map socketLogs_map (socket_events evs))
          (flat_map (fun tev => emitted (snd tev)) evs).
Proof.
  induction evs as [|[t [e|log]] evs IH]; simpl.
  - constructor.
  - apply sublist_skip. exact IH.
  - apply sublist_inserts_l. exact IH.
Qed.

Lemma device_in_order (evs : list (Z * source_event)) :
  sublist (flat_map emitted_device (device_events evs))
          (flat_map (fun tev => emitted (snd tev)) evs).
Proof.
  induction evs as [|[t [e|log]] evs IH]; simpl.
  - constructor.
  - apply sublist_cons. exact IH.
  - apply sublist_app; [reflexivity | exact IH].
Qed.

(** X1. Events of the two sources are appended as they arrive: the
    payloads of the new entries are the concatenation, in arrival order,
    of what each event emits, so the entries of the socket events and
    those of the device logs each keep the order of their source. *)
Theorem merged_stream_keeps_arrival_order
    (s : store) (evs : list (Z * source_event)) :
  exists new,
    logs (feed s evs) = logs s ++ new
    /\ map entry_payload new = flat_map (fun tev => emitted (snd tev)) evs
    /\ sublist (map socketLogs_map (socket_events evs)) (map entry_payload new)
    /\ sublist (flat_map emitted_device (device_events evs))
               (map entry_payload new).
Proof.
  destruct (feed_logs evs s) as (new & Hl & Hp).
  exists new. rewrite Hp.
  split; [exact Hl|]. split; [reflexivity|].
  split; [apply socket_in_order | apply device_in_order].
Qed.

Lemma socket_kind (e : raw) :
  p_type (socketLogs_map e) ∈ source_kinds
  /\ p_object (socketLogs_map e) = JUndefined.
Proof.
  unfold socketLogs_map, source_kinds.
  repeat match goal with
  | |- context [if ?b then _ else _] => destruct b
  end; simpl; (split; [|reflexivity]);
    repeat first [apply list_elem_of_here | apply list_elem_of_further].
Qed.

Lemma device_kind (log : raw) (p : payload) :
  p ∈ emitted_device log ->
  p_type p ∈ source_kinds /\ p_object p = JUndefined.
Proof.
  unfold emitted_device, listen_callback, source_kinds.
  repeat match goal with
  | |- context [if ?b then _ else _] => destruct b
  end; simpl; intros Hp;
    try (apply elem_of_nil in Hp; contradiction);
    apply list_elem_of_singleton in Hp; subst p; simpl;
    (split; [|reflexivity]);
    repeat first [apply list_elem_of_here | apply list_elem_of_further].
Qed.

(** X2. Whatever the event, a payload that a source puts into the stream
    has kind warn, verbose, error, apdu or binary, never command or
    announcement, and carries no attachment. *)
Theorem sources_emit_source_kinds (ev : source_event) (p : payload) :
  p ∈ emitted ev ->
  p_type p ∈ source_kinds
  /\ p_type p <> "command" /\ p_type p <> "announcement"
  /\ p_object p = JUndefined.
Proof.
  intros Hp.
  assert (H : p_type p ∈ source_kinds /\ p_object p = JUndefined).
  { destruct ev as [e|log]; simpl in Hp.
    - unfold emitted_socket in Hp. simpl in Hp.
      apply list_elem_of_singleton in Hp. subst p. apply socket_kind.
    - apply (device_kind log). exact Hp. }
  destruct H as [Hk Ho]. split; [exact Hk|].
  unfold source_kinds in Hk.
  repeat split; try exact Ho; intros Heq; rewrite Heq in Hk;
    repeat (apply elem_of_cons in Hk; destruct Hk as [Hk | Hk];
            [discriminate|]);
    apply elem_of_nil in Hk; exact Hk.
Qed.

End StreamFacts.

(** ** More on the filters *)

Section MoreFilterFacts.

Import Filters Clicks.
Local Open Scope list_scope.

Lemma rendered_cons (f : gmap string bool) (e : LogEntry) (l : list LogEntry) :
  rendered f (e :: l)
  = if enabled f (log_type e) then e :: rendered f l else rendered f l.
Proof. reflexivity. Qed.

(** X3. Toggling the filter of [k] changes the rendered entries of kind
    [k] only: the entries of the other kinds are the same before and
    after, in the same order; when [k] was enabled the new view is the
    old one without the entries of kind [k], and when it was disabled the
    old view is the new one without them. *)
Theorem toggle_changes_one_kind
    (f : gmap string bool) (k : string) (l : list LogEntry) :
  List.filter (other_kind k) (rendered (toggleFilter f k) l)
  = List.filter (other_kind k) (rendered f l)
  /\ (enabled f k = true ->
        rendered (toggleFilter f k) l
        = List.filter (other_kind k) (rendered f l))
  /\ (enabled f k = false ->
        rendered f l
        = List.filter (other_kind k) (rendered (toggleFilter f k) l)).
Proof.
  split; [|split].
  - induction l as [|e l IH]; [reflexivity|].
    rewrite !rendered_cons. unfold other_kind in *.
    destruct (String.eqb_spec (log_type e) k) as [Heq|Hne].
    + subst k. rewrite enabled_toggle_same.
      destruct (enabled f (log_type e)); simpl; rewrite String.eqb_refl;
        simpl; exact IH.
    + rewrite enabled_toggle_other by exact Hne.
      destruct (enabled f (log_type e)); simpl; [|exact IH].
      destruct (String.eqb_spec (log_type e) k); [contradiction|]. simpl.
      rewrite IH. reflexivity.
  - intros Hon. induction l as [|e l IH]; [reflexivity|].
    rewrite !rendered_cons. unfold other_kind in *.
    destruct (String.eqb_spec (log_type e) k) as [Heq|Hne].
    + subst k. rewrite enabled_toggle_same, Hon. simpl.
      rewrite String.eqb_refl. simpl. exact IH.
    + rewrite enabled_toggle_other by exact Hne.
      destruct (enabled f (log_type e)); simpl; [|exact IH].
      destruct (String.eqb_spec (log_type e) k); [contradiction|]. simpl.
      rewrite IH. reflexivity.
  - intros Hoff. induction l as [|e l IH]; [reflexivity|].
    rewrite !rendered_cons. unfold other_kind in *.
    destruct (String.eqb_spec (log_type e) k) as [Heq|Hne].
    + subst k. rewrite enabled_toggle_same, Hoff. simpl.
      rewrite String.eqb_refl. simpl. exact IH.
    + rewrite enabled_toggle_other by exact Hne.
      destruct (enabled f (log_type e)); simpl; [|exact IH].
      destruct (String.eqb_spec (log_type e) k); [contradiction|]. simpl.
      rewrite IH. reflexivity.
Qed.

Lemma toggle_commute (f : gmap string bool) (k1 k2 : string) :
  toggleFilter (toggleFilter f k1) k2 = toggleFilter (toggleFilter f k2) k1.
Proof.
  destruct (decide (k1 = k2)) as [->|Hne]; [reflexivity|].
  unfold toggleFilter at 1 3.
  rewrite (enabled_toggle_other f k1 k2) by congruence.
  rewrite (enabled_toggle_other f k2 k1) by congruence.
  unfold toggleFilter. apply insert_insert_ne. congruence.
Qed.

Lemma fold_click_permutation (hs hs' : list header) :
  Permutation hs hs' ->
  forall f, fold_left click hs f = fold_left click hs' f.
Proof.
  induction 1 as [|h l l' Hp IH|h1 h2 l|l1 l2 l3 H12 IH12 H23 IH23];
    intros f; simpl.
  - reflexivity.
  - apply IH.
  - unfold click. rewrite toggle_commute. reflexivity.
  - rewrite IH12. apply IH23.
Qed.

Lemma same_header_spec (a b : header) : same_header a b = true <-> a = b.
Proof. destruct a, b; simpl; split; intros H; congruence. Qed.

Lemma header_filter_inj (a b : header) :
  header_filter a = header_filter b -> a = b.
Proof. destruct a, b; simpl; intros H; congruence. Qed.

Lemma fold_click_parity (h : header) (hs : list header) : forall f,
  enabled (fold_left click hs f) (header_filter h)
  = xorb (enabled f (header_filter h)) (Nat.odd (clicks_on h hs)).
Proof.
  induction hs as [|h' hs IH]; intros f.
  - simpl. destruct (enabled f (header_filter h)); reflexivity.
  - cbn [fold_left]. rewrite IH. unfold clicks_on. cbn [List.filter].
    destruct (same_header h h') eqn:Hs.
    + apply same_header_spec in Hs. subst h'. unfold click.
      rewrite enabled_toggle_same. cbn [length]. rewrite Nat.odd_succ.
      rewrite <- Nat.negb_odd.
      destruct (enabled f (header_filter h)),
        (Nat.odd (length (List.filter (same_header h) hs))); reflexivity.
    + unfold click. rewrite enabled_toggle_other; [reflexivity|].
      intros Heq. apply header_filter_inj in Heq. subst h'.
      destruct h; discriminate.
Qed.

(** X4. After any clicks on the header filters, the filter of a header is
    on exactly when that header was clicked an even number of times, and
    the whole filter object does not depend on the order of the clicks. *)
Theorem header_filter_is_click_parity (hs : list header) (h : header) :
  enabled (clicks hs) (header_filter h) = Nat.even (clicks_on h hs)
  /\ forall hs', Permutation hs hs' -> clicks hs = clicks hs'.
Proof.
  split.
  - unfold clicks. rewrite fold_click_parity.
    assert (Hinit : enabled initial (header_filter h) = true)
      by (destruct h; vm_compute; reflexivity).
    rewrite Hinit, <- Nat.negb_odd. reflexivity.
  - intros hs' Hp. unfold clicks. apply fold_click_permutation. exact Hp.
Qed.

End MoreFilterFacts.

(** ** More on the transport session *)

Section MoreSessionFacts.

Import Session.
Local Open Scope list_scope.

Lemma without_sublist (t : handle) (l : list handle) : sublist (without t l) l.
Proof.
  unfold without. induction l as [|x l IH]; simpl.
  - constructor.
  - destruct (negb (x =? t)%nat); [apply sublist_skip | apply sublist_cons];
      exact IH.
Qed.

Lemma not_elem_of_without (t : handle) (l : list handle) : t ∉ without t l.
Proof. rewrite elem_of_without. intros [_ Hne]. congruence. Qed.

(** X5. The disconnect notification of a handle: when the handle is the
    active one the session has no transport afterwards and
    [leftTransports] is as before; otherwise the active transport is as
    before and the handle is removed from [leftTransports], the other
    handles staying in their order.  Either way the listener is detached,
    so the notification cannot fire for this handle again. *)
Theorem disconnect_notification (s : session) (t : handle) :
  (transport s = Some t ->
     transport (react s (Disconnect t)) = None
     /\ leftTransports (react s (Disconnect t)) = leftTransports s)
  /\ (transport s <> Some t ->
        transport (react s (Disconnect t)) = transport s
        /\ leftTransports (react s (Disconnect t))
           = without t (leftTransports s)
        /\ (t ∉ leftTransports (react s (Disconnect t)))
        /\ sublist (leftTransports (react s (Disconnect t)))
                   (leftTransports s)
        /\ forall x, x <> t ->
             (x ∈ leftTransports (react s (Disconnect t))
              <-> x ∈ leftTransports s))
  /\ enabled (react s (Disconnect t)) (Disconnect t) = false.
Proof.
  unfold react. rewrite !render_transport, !render_leftTransports.
  cbn [handler enabled]. unfold disconnected.
  split; [|split].
  - intros Ht. destruct (decide (transport s = Some t)); [|contradiction].
    split; reflexivity.
  - intros Ht. destruct (decide (transport s = Some t)); [contradiction|].
    cbn [transport leftTransports].
    split; [reflexivity|]. split; [reflexivity|].
    split; [apply not_elem_of_without|].
    split; [apply without_sublist|].
    intros x Hx. rewrite elem_of_without. tauto.
  - apply mem_false.
    destruct (decide (transport s = Some t)); cbn [render listening];
      apply not_elem_of_without.
Qed.

(** What a handler does to [leftTransports]: it changes the transport, or
    leaves a sublist of the list there was. *)
Lemma handler_left_sublist (ev : event) (s : session) :
  transport (handler ev s) <> transport s
  \/ sublist (leftTransports (handler ev s)) (leftTransports s).
Proof.
  destruct ev as [|t| | | |t|t|t]; simpl;
    try (right; reflexivity).
  - unfold onLeaveTransport. destruct (transport s) eqn:Ht; simpl.
    + left. rewrite ?Ht. discriminate.
    + right. reflexivity.
  - unfold onClose. destruct (transport s); right; reflexivity.
  - right. apply without_sublist.
  - unfold disconnected. destruct (decide (transport s = Some t)); simpl;
      right; [reflexivity | apply without_sublist].
Qed.

(** The list [onLeaveTransport] closed over contains the current
    [leftTransports] as a sublist. *)
Lemma closure_covers_left (s : session) :
  reachable s -> sublist (leftTransports s) (onLeave_leftTransports s).
Proof.
  induction 1 as [|s ev Hs IH Hen].
  - constructor.
  - unfold react, render. cbn [leftTransports onLeave_leftTransports].
    destruct (decide (transport s = transport (handler ev s))) as [Heq|Hne];
      [|reflexivity].
    destruct (handler_left_sublist ev s) as [Hch | Hsub]; [congruence|].
    etransitivity; [exact Hsub | exact IH].
Qed.

(** X6. In a reachable session a handle leaves [leftTransports] only by
    its own disconnect notification or by its re-use: no other click or
    event, the "Close" buttons and leave included, removes it. *)
Theorem backgrounded_handle_stays (s : session) (ev : event) (t : handle) :
  reachable s -> t ∈ leftTransports s ->
  t ∉ leftTransports (react s ev) ->
  ev = Disconnect t \/ ev = ClickReuse t.
Proof.
  intros Hs Hin Hout. pose proof (closure_covers_left s Hs) as Hcov.
  unfold react in Hout. rewrite render_leftTransports in Hout.
  destruct ev as [|t'| | | |t'|t'|t']; simpl in Hout;
    try contradiction.
  - exfalso. unfold onLeaveTransport in Hout.
    destruct (transport s); simpl in Hout; [|contradiction].
    apply Hout. apply elem_of_app. left.
    eapply elem_of_sublist; [exact Hin | exact Hcov].
  - exfalso. unfold onClose in Hout.
    destruct (transport s); simpl in Hout; contradiction.
  - right. rewrite elem_of_without in Hout.
    destruct (decide (t = t')) as [->|Hne]; [reflexivity|].
    exfalso. apply Hout. split; assumption.
  - left. unfold disconnected in Hout.
    destruct (decide (transport s = Some t')); simpl in Hout;
      [contradiction|].
    rewrite elem_of_without in Hout.
    destruct (decide (t = t')) as [->|Hne]; [reflexivity|].
    exfalso. apply Hout. split; assumption.
Qed.

(** X7. Leaving the active handle of a reachable session keeps every
    backgrounded handle in its order and puts the handle left at the end
    of [leftTransports]; the session has no transport afterwards. *)
Theorem leave_keeps_backgrounded (s : session) (h : handle) :
  reachable s -> transport s = Some h ->
  transport (react s ClickLeave) = None
  /\ sublist (leftTransports s ++ [h]) (leftTransports (react s ClickLeave))
  /\ last (leftTransports (react s ClickLeave)) = Some h.
Proof.
  intros Hs Ht. pose proof (closure_covers_left s Hs) as Hcov.
  unfold react. rewrite render_transport, render_leftTransports.
  cbn [handler]. unfold onLeaveTransport. rewrite Ht.
  cbn [transport leftTransports].
  split; [reflexivity|].
  split; [apply sublist_app; [exact Hcov | reflexivity]|].
  apply last_snoc.
Qed.

(** X8. Re-using a backgrounded handle and leaving it again: the session
    has no transport, the handle has moved to the end of [leftTransports]
    and the backgrounded handles are the same as before. *)
Theorem reuse_then_leave (s : session) (t : handle) :
  t ∈ leftTransports s -> transport s <> Some t ->
  let s2 := react (react s (ClickReuse t)) ClickLeave in
  transport s2 = None
  /\ leftTransports s2 = without t (leftTransports s) ++ [t]
  /\ forall x, x ∈ leftTransports s2 <-> x ∈ leftTransports s.
Proof.
  intros Hin Hne s2.
  assert (H1 : transport (react s (ClickReuse t)) = Some t) by reflexivity.
  assert (H2 : onLeave_leftTransports (react s (ClickReuse t))
               = without t (leftTransports s)).
  { unfold react, render. cbn [handler reuse transport leftTransports
                               onLeave_leftTransports].
    destruct (decide (transport s = Some t)); [contradiction | reflexivity]. }
  assert (H3 : leftTransports s2 = without t (leftTransports s) ++ [t]).
  { unfold s2, react at 1. rewrite render_leftTransports. cbn [handler].
    unfold onLeaveTransport. rewrite H1, H2. reflexivity. }
  split; [|split].
  - unfold s2, react at 1. rewrite render_transport. cbn [handler].
    unfold onLeaveTransport. rewrite H1. reflexivity.
  - exact H3.
  - intros x. rewrite H3, elem_of_app, elem_of_without, list_elem_of_singleton.
    destruct (decide (x = t)) as [->|Hx]; tauto.
Qed.

End MoreSessionFacts.

(** ** The component as a whole *)

Section UiFacts.

Import App Ui.
Local Open Scope list_scope.

Lemma ui_reachable_run (evs : list (Z * event)) : forall a,
  reachable a -> possible a evs = true -> reachable (run a evs).
Proof.
  induction evs as [|[now ev] evs IH]; intros a Ha Hp; simpl in *; [exact Ha|].
  apply andb_prop in Hp as [He Hp].
  apply IH; [|exact Hp]. apply reachable_step; assumption.
Qed.

(** *** The store under the handlers *)

Lemma store_sorted_addLog (now : Z) (p : payload) (s : store) :
  store_sorted s -> store_sorted (addLog now p s).
Proof.
  intros [Hs Hle]. unfold store_sorted, addLog. simpl. split.
  - rewrite map_app. simpl. apply sorted_snoc; [exact Hs|].
    apply Forall_map. eapply Forall_impl; [exact Hle|].
    simpl. intros e He. lia.
  - apply Forall_app. split.
    + eapply Forall_impl; [exact Hle|]. simpl. intros e He. lia.
    + repeat constructor. simpl. lia.
Qed.

Lemma store_sorted_fold (now : Z) (ps : list payload) : forall s,
  store_sorted s ->
  store_sorted (fold_left (fun acc p => addLog now p acc) ps s).
Proof.
  induction ps as [|p ps IH]; intros s Hs; simpl; [exact Hs|].
  apply IH. apply store_sorted_addLog. exact Hs.
Qed.

Lemma store_sorted_rerender (s : store) :
  store_sorted s -> store_sorted (rerender s).
Proof.
  intros [Hs Hle]. split; [exact Hs|]. simpl.
  eapply Forall_impl; [exact Hle|]. simpl. intros e He. lia.
Qed.

Lemma store_sorted_clear (now : Z) (s : store) : store_sorted (clearLogs now s).
Proof. split; constructor. Qed.

Lemma kinds_fold (now : Z) (ps : list payload) : forall s,
  Forall known_payload ps ->
  Forall (fun e => known_payload (entry_payload e)) (logs s) ->
  Forall (fun e => known_payload (entry_payload e))
         (logs (fold_left (fun acc p => addLog now p acc) ps s)).
Proof.
  intros s Hps Hs.
  destruct (fold_addLog_logs now ps s) as (new & Hl & Hm).
  rewrite Hl. apply Forall_app. split; [exact Hs|].
  subst ps. rewrite Forall_map in Hps. exact Hps.
Qed.

Ltac in_list :=
  repeat first [apply list_elem_of_here | apply list_elem_of_further].

Lemma source_kind_is_kind (k : string) :
  k ∈ Stream.source_kinds -> k ∈ Filters.kinds.
Proof.
  unfold Stream.source_kinds. intros Hk.
  repeat (apply elem_of_cons in Hk; destruct Hk as [-> | Hk];
          [unfold Filters.kinds; in_list|]).
  apply elem_of_nil in Hk. contradiction.
Qed.

Lemma invocation_kinds (c : Command) (value : list jsval) :
  Forall known_payload (invocation c value).
Proof.
  unfold invocation, known_payload. constructor.
  - simpl. split; [unfold Filters.kinds; in_list | left; reflexivity].
  - apply Forall_map. apply Forall_forall. intros x _. simpl.
    split; [unfold Filters.kinds; in_list | left; reflexivity].
Qed.

Ltac store_unchanged :=
  left; exists []; split; [constructor | reflexivity].

Ltac store_appended :=
  left; eexists [_]; refine (conj _ eq_refl);
  constructor;
  [ split; simpl;
    [ unfold Filters.kinds; in_list
    | first [left; reflexivity | right; reflexivity] ]
  | constructor ].

Lemma step_store_grows (now : Z) (ev : event) (a : app) :
  ev <> ClickClearLogs -> store_grows now (st a) (st (step now ev a)).
Proof.
  intros Hev.
  destruct ev as [sev error|c|bag|error| | |tok result|tok|tok error|thrown
                  |h| |e|log|]; cbn [step].
  - destruct sev; try store_unchanged. store_appended.
  - unfold onSelectedCommand.
    destruct c, (transport (sess a)); store_unchanged.
  - store_unchanged.
  - store_appended.
  - unfold onSendCommand.
    destruct (selectedCommand (disp a)) as [c|], (transport (sess a)) as [t|];
      try store_unchanged.
    left. exists (invocation c (commandValue (disp a))).
    split; [apply invocation_kinds | reflexivity].
  - unfold onCommandCancel. destruct (commandSub (disp a)); store_unchanged.
  - unfold execution_next. destruct (subscription tok (disp a));
      [store_appended | store_unchanged].
  - unfold execution_complete. destruct (subscription tok (disp a));
      [store_appended | store_unchanged].
  - unfold execution_error. destruct (subscription tok (disp a));
      [store_appended | store_unchanged].
  - unfold onSendApdu. destruct (transport (sess a)), thrown;
      try store_unchanged. store_appended.
  - store_unchanged.
  - contradiction.
  - left. exists (Aggregator.emitted_socket e). split; [|reflexivity].
    unfold Aggregator.emitted_socket. simpl. constructor; [|constructor].
    destruct (socket_kind e) as [Hk Ho].
    split; [apply source_kind_is_kind; exact Hk | right; exact Ho].
  - left. exists (Aggregator.emitted_device log). split; [|reflexivity].
    apply Forall_forall. intros p Hp.
    destruct (device_kind log p Hp) as [Hk Ho].
    split; [apply source_kind_is_kind; exact Hk | right; exact Ho].
  - right. reflexivity.
Qed.

Lemma step_store_change (now : Z) (ev : event) (a : app) :
  store_change now (st a) (st (step now ev a)).
Proof.
  assert (Hev : ev = ClickClearLogs \/ ev <> ClickClearLogs)
    by (destruct ev; (left; reflexivity) || (right; discriminate)).
  destruct Hev as [-> | Hev].
  - right. left. reflexivity.
  - destruct (step_store_grows now ev a Hev) as [Hps | Hr].
    + left. exact Hps.
    + right. right. exact Hr.
Qed.

Lemma reachable_store (a : app) :
  reachable a ->
  store_sorted (st a)
  /\ Forall (fun e => known_payload (entry_payload e)) (logs (st a)).
Proof.
  induction 1 as [now|a now ev Ha [IHs IHk] Hen].
  - split.
    + split; repeat constructor. simpl. lia.
    + constructor; [|constructor].
      split; [simpl; unfold Filters.kinds; in_list | right; reflexivity].
  - destruct (step_store_change now ev a) as [(ps & Hps & ->) | [-> | ->]].
    + split; [apply store_sorted_fold; exact IHs|].
      apply kinds_fold; assumption.
    + split; [apply store_sorted_clear | constructor].
    + split; [apply store_sorted_rerender; exact IHs | exact IHk].
Qed.

(** *** The filters under the handlers *)

Lemma step_filters (now : Z) (ev : event) (a : app) :
  filters (step now ev a) = filters a
  \/ exists h, filters (step now ev a) = Filters.click (filters a) h.
Proof.
  destruct ev as [sev error|c|bag|error| | |tok result|tok|tok error|thrown
                  |h| |e|log|]; cbn [step]; try (left; reflexivity).
  - destruct sev; left; reflexivity.
  - unfold onSelectedCommand.
    destruct c, (transport (sess a)); left; reflexivity.
  - unfold onSendCommand.
    destruct (selectedCommand (disp a)), (transport (sess a));
      left; reflexivity.
  - unfold onCommandCancel. destruct (commandSub (disp a)); left; reflexivity.
  - unfold execution_next. destruct (subscription tok (disp a));
      left; reflexivity.
  - unfold execution_complete. destruct (subscription tok (disp a));
      left; reflexivity.
  - unfold execution_error. destruct (subscription tok (disp a));
      left; reflexivity.
  - unfold onSendApdu. destruct (transport (sess a)), thrown; left; reflexivity.
  - right. exists h. reflexivity.
Qed.

Lemma reachable_filters (a : app) :
  reachable a ->
  (forall k, k ∈ Filters.kinds -> is_Some (filters a !! k))
  /\ (forall k, k ∈ Filters.unfiltered_kinds -> filters a !! k = Some true).
Proof.
  induction 1 as [now|a now ev Ha [IHd IHu] Hen].
  - split.
    + intros k Hk. apply initial_defined. exact Hk.
    + intros k Hk. unfold Filters.unfiltered_kinds in Hk.
      repeat (apply elem_of_cons in Hk; destruct Hk as [-> | Hk];
              [vm_compute; reflexivity|]).
      apply elem_of_nil in Hk. contradiction.
  - destruct (step_filters now ev a) as [-> | [h ->]]; [split; assumption|].
    split.
    + intros k Hk. apply toggle_keeps_defined. apply IHd. exact Hk.
    + intros k Hk. apply click_keeps_unfiltered; [exact Hk|]. apply IHu.
      exact Hk.
Qed.

Lemma filter_map_sorted (P : LogEntry -> bool) (l : list LogEntry) :
  StronglySorted N.lt (map log_id l) ->
  StronglySorted N.lt (map log_id (List.filter P l)).
Proof.
  induction l as [|e l IH]; simpl; intros Hs; [constructor|].
  inversion Hs as [|x xs Hs' Hall]; subst.
  destruct (P e); simpl; [|apply IH; exact Hs'].
  constructor; [apply IH; exact Hs'|].
  rewrite Forall_forall in Hall. apply Forall_forall. intros i Hi.
  apply Hall. rewrite list_elem_of_In in *. rewrite in_map_iff in *.
  destruct Hi as (x & Hx & Hin). exists x. split; [exact Hx|].
  apply filter_In in Hin. tauto.
Qed.

(** X9. In every state the component reaches, the ids of the stored
    entries increase strictly along the log and none exceeds the counter;
    so the entries that are rendered have pairwise distinct ids, which are
    their React keys. *)
Theorem rendered_keys_are_distinct (a : app) :
  reachable a ->
  StronglySorted N.lt (map log_id (logs (st a)))
  /\ (forall e, e ∈ logs (st a) -> (log_id e <= id (st a))%N)
  /\ StronglySorted N.lt (map log_id (view a))
  /\ NoDup (map log_id (view a)).
Proof.
  intros Ha. destruct (reachable_store a Ha) as [[Hs Hle] _].
  split; [exact Hs|].
  split; [rewrite Forall_forall in Hle; exact Hle|].
  assert (Hv : StronglySorted N.lt (map log_id (view a))).
  { unfold view, Filters.rendered. apply filter_map_sorted. exact Hs. }
  split; [exact Hv | apply sorted_lt_NoDup; exact Hv].
Qed.

(** X10. In every state the component reaches, each stored entry has one
    of the seven kinds, the filters hold a value for its kind, and an
    entry of kind error, warn or announcement is in the rendered view. *)
Theorem stored_kinds_are_filter_keys (a : app) (e : LogEntry) :
  reachable a -> e ∈ logs (st a) ->
  log_type e ∈ Filters.kinds
  /\ is_Some (filters a !! log_type e)
  /\ (log_type e ∈ Filters.unfiltered_kinds -> e ∈ view a).
Proof.
  intros Ha He. destruct (reachable_store a Ha) as [_ Hk].
  destruct (reachable_filters a Ha) as [Hd Hu].
  rewrite Forall_forall in Hk. specialize (Hk e He). destruct Hk as [Hk _].
  simpl in Hk.
  split; [exact Hk|]. split; [apply Hd; exact Hk|].
  intros Hun. unfold view, Filters.rendered.
  rewrite list_elem_of_In, filter_In. split.
  - rewrite <- list_elem_of_In. exact He.
  - unfold Filters.enabled. rewrite (Hu _ Hun). reflexivity.
Qed.

(** *** The dispatcher under the handlers *)

Lemma onSendCommand_effect
    (now : Z) (a : app) (c : Command) (t : handle) :
  selectedCommand (disp a) = Some c -> transport (sess a) = Some t ->
  (exists new,
     logs (st (onSendCommand now a)) = logs (st a) ++ new
     /\ map entry_payload new = invocation c (commandValue (disp a)))
  /\ commandSub (disp (onSendCommand now a)) = Some (next_token (disp a))
  /\ subscriptions (disp (onSendCommand now a))
     = subscriptions (disp a) ++ [Exec (next_token (disp a)) c t now].
Proof.
  intros Hc Ht. unfold onSendCommand. rewrite Hc, Ht.
  split; [exact (fold_addLog_logs now _ (st a))|]. split; reflexivity.
Qed.

Lemma single_execution_step (now : Z) (ev : event) (a : app) :
  single_execution (disp a) -> enabled a ev = true ->
  single_execution (disp (step now ev a)).
Proof.
  intros Hinv Hen. unfold single_execution in *.
  destruct ev as [sev error|c|bag|error| | |tok result|tok|tok error|thrown
                  |h| |e|log|]; cbn [step enabled] in *;
    try exact Hinv.
  - destruct sev; exact Hinv.
  - unfold onSelectedCommand.
    destruct c as [cmd|], (transport (sess a)); try exact Hinv. simpl.
    destruct (commandSub (disp a)), (subscriptions (disp a)) as [|x [|y l]];
      try exact Hinv.
    destruct Hinv as [Htok _]. split; [exact Htok | eauto].
  - unfold send_rendered in Hen. apply andb_prop in Hen as [Hen Hsub].
    apply andb_prop in Hen as [Htr Hsel].
    unfold onSendCommand.
    destruct (selectedCommand (disp a)) as [c|]; [|discriminate].
    destruct (transport (sess a)) as [t|]; [|discriminate].
    destruct (commandSub (disp a)); [discriminate|]. simpl.
    destruct (subscriptions (disp a)); [|contradiction]. simpl.
    split; [reflexivity | eauto].
  - unfold cancel_rendered in Hen. apply andb_prop in Hen as [_ Hsub].
    unfold onCommandCancel.
    destruct (commandSub (disp a)) as [tok|]; [|discriminate]. simpl.
    destruct (subscriptions (disp a)) as [|x [|y l]]; try contradiction.
    destruct Hinv as [Htok _]. simpl. rewrite Htok, Nat.eqb_refl. exact I.
  - unfold execution_next. destruct (subscription tok (disp a)); exact Hinv.
  - unfold execution_complete.
    destruct (subscription tok (disp a)) as [x0|] eqn:Hf; [|exact Hinv].
    unfold subscription in Hf. simpl.
    destruct (commandSub (disp a)) as [tok'|],
      (subscriptions (disp a)) as [|x [|y l]]; try contradiction;
      simpl in *; [|discriminate].
    destruct (Nat.eqb_spec (token x) tok); [exact I | discriminate].
  - unfold execution_error.
    destruct (subscription tok (disp a)) as [x0|] eqn:Hf; [|exact Hinv].
    unfold subscription in Hf. simpl.
    destruct (commandSub (disp a)) as [tok'|],
      (subscriptions (disp a)) as [|x [|y l]]; try contradiction;
      simpl in *; [|discriminate].
    destruct (Nat.eqb_spec (token x) tok); [exact I | discriminate].
  - unfold onSendApdu. destruct (transport (sess a)), thrown; exact Hinv.
Qed.

Lemma reachable_single_execution (a : app) :
  reachable a -> single_execution (disp a).
Proof.
  induction 1 as [now|a now ev Ha IH Hen].
  - exact I.
  - apply single_execution_step; assumption.
Qed.

(** X11. Through the rendered controls, with executions that deliver
    their results after [onSendCommand] has returned, at most one
    subscription is open at a time: [commandSub] is null exactly when none
    is open, it holds the token of the open one otherwise, a command is
    selected while one is open, and "Send" is rendered only when none
    is. *)
Theorem at_most_one_execution (a : app) :
  reachable a ->
  length (subscriptions (disp a)) <= 1
  /\ (commandSub (disp a) = None <-> subscriptions (disp a) = [])
  /\ (forall tok, commandSub (disp a) = Some tok ->
        exists x, subscriptions (disp a) = [x] /\ token x = tok
                  /\ is_Some (selectedCommand (disp a)))
  /\ (send_rendered a = true -> subscriptions (disp a) = []).
Proof.
  intros Ha. pose proof (reachable_single_execution a Ha) as Hinv.
  unfold single_execution, send_rendered in *.
  destruct (commandSub (disp a)) as [tok|],
    (subscriptions (disp a)) as [|x [|y l]]; try contradiction; simpl.
  - destruct Hinv as [Htok Hsel].
    split; [lia|]. split; [split; discriminate|].
    split; [intros tok' [= <-]; exists x; auto|].
    rewrite andb_false_r. discriminate.
  - split; [lia|]. split; [tauto|]. split; [discriminate | reflexivity].
Qed.

(** *** One execution from "Send" to completion *)

Lemma find_fresh (tok : nat) (l : list execution) :
  Forall (fun x => token x <> tok) l ->
  List.find (fun x => Nat.eqb (token x) tok) l = None.
Proof.
  induction 1 as [|x l Hx _ IH]; simpl; [reflexivity|].
  destruct (Nat.eqb_spec (token x) tok); [contradiction | exact IH].
Qed.

Lemma filter_fresh (tok : nat) (l : list execution) :
  Forall (fun x => token x <> tok) l ->
  List.filter (fun x => negb (Nat.eqb (token x) tok)) l = l.
Proof.
  induction 1 as [|x l Hx _ IH]; simpl; [reflexivity|].
  destruct (Nat.eqb_spec (token x) tok); [contradiction|]. simpl.
  rewrite IH. reflexivity.
Qed.

Lemma find_snoc_fresh (tok : nat) (l : list execution) (x : execution) :
  Forall (fun y => token y <> tok) l -> token x = tok ->
  List.find (fun y => Nat.eqb (token y) tok) (l ++ [x]) = Some x.
Proof.
  induction 1 as [|y l Hy _ IH]; intros Hx; simpl.
  - rewrite Hx, Nat.eqb_refl. reflexivity.
  - destruct (Nat.eqb_spec (token y) tok); [contradiction | apply IH; exact Hx].
Qed.

Lemma results_logs (tok : nat) (results : list (Z * jsval)) : forall a,
  is_Some (subscription tok (disp a)) ->
  let a' := fold_left (fun acc r => execution_next (fst r) tok (snd r) acc)
              results a in
  disp a' = disp a /\ sess a' = sess a /\ filters a' = filters a
  /\ exists new,
       logs (st a') = logs (st a) ++ new
       /\ map entry_payload new
          = map (fun r => result_payload (snd r)) results.
Proof.
  induction results as [|[now r] results IH]; intros a Hsub; simpl.
  - repeat split. exists []. rewrite List.app_nil_r. split; reflexivity.
  - assert (Hnext : execution_next now tok r a
                    = with_st (addLog now (result_payload r)) a).
    { unfold execution_next. destruct Hsub as [x ->]. reflexivity. }
    rewrite Hnext.
    destruct (IH (with_st (addLog now (result_payload r)) a) Hsub)
      as (Hd & Hs & Hf & new & Hl & Hm).
    simpl in Hd, Hs, Hf, Hl.
    split; [exact Hd|]. split; [exact Hs|]. split; [exact Hf|].
    eexists (_ :: new). rewrite Hl, <- List.app_assoc. simpl.
    split; [reflexivity|]. rewrite Hm. reflexivity.
Qed.

Lemma execute_effect
    (t0 t1 : Z) (results : list (Z * jsval)) (a : app)
    (c : Command) (t : handle) :
  selectedCommand (disp a) = Some c -> transport (sess a) = Some t ->
  Forall (fun x => token x <> next_token (disp a)) (subscriptions (disp a)) ->
  (exists new,
     logs (st (execute t0 results t1 a)) = logs (st a) ++ new
     /\ map entry_payload new
        = invocation c (commandValue (disp a))
          ++ map (fun r => result_payload (snd r)) results
          ++ [completion_payload c (t1 - t0)])
  /\ commandSub (disp (execute t0 results t1 a)) = None
  /\ subscriptions (disp (execute t0 results t1 a)) = subscriptions (disp a)
  /\ selectedCommand (disp (execute t0 results t1 a)) = Some c
  /\ sess (execute t0 results t1 a) = sess a.
Proof.
  intros Hc Ht Hfresh. unfold execute.
  set (tok := next_token (disp a)) in *.
  destruct (onSendCommand_effect t0 a c t Hc Ht)
    as ((n1 & Hl1 & Hm1) & Hsub1 & Hsubs1).
  assert (Hsel1 : selectedCommand (disp (onSendCommand t0 a)) = Some c
                  /\ sess (onSendCommand t0 a) = sess a).
  { unfold onSendCommand. rewrite Hc, Ht. simpl. rewrite ?Hc.
    split; reflexivity. }
  destruct Hsel1 as [Hsel1 Hsess1].
  set (a1 := onSendCommand t0 a) in *.
  assert (Hfind : subscription tok (disp a1) = Some (Exec tok c t t0)).
  { unfold subscription. rewrite Hsubs1.
    apply find_snoc_fresh; [exact Hfresh | reflexivity]. }
  destruct (results_logs tok results a1 ltac:(eauto))
    as (Hd & Hs2 & _ & n2 & Hl2 & Hm2).
  set (a2 := fold_left _ results a1) in *.
  unfold execution_complete. rewrite Hd, Hfind.
  cbn [with_st with_disp st disp sess commandSub subscriptions selectedCommand
       drop_subscription setCommandSub startTime exec_command].
  rewrite ?Hd.
  split.
  { exists (n1 ++ n2 ++ [Entry (id (st a2) + 1) t1 "command"
              (JStr (cmd_id c +:+ " completed in " +:+
                     Elapsed.delta (t1 - t0) +:+ ".")) JUndefined]).
    split.
    - unfold addLog. simpl. rewrite Hl2, Hl1, <- !List.app_assoc. reflexivity.
    - rewrite !map_app, Hm1, Hm2. reflexivity. }
  split; [reflexivity|].
  split.
  { rewrite Hsubs1, List.filter_app, (filter_fresh tok _ Hfresh). simpl.
    rewrite Nat.eqb_refl. simpl. apply List.app_nil_r. }
  split; [exact Hsel1|]. rewrite Hs2. exact Hsess1.
Qed.

(** X12. An execution started by [onSendCommand] at [t0], with a command
    selected, a transport active and a token no open subscription has,
    that delivers the given results and completes at [t1], appends to the
    log, in this order, the invocation entry, one entry per value of the
    form, one "<=" entry per result with the result attached, and the
    completion entry for the elapsed time [t1 - t0]: 1 + values + results
    + 1 entries, the same whether the observable delivers after
    [onSendCommand] has returned or inside [subscribe].  The other open
    subscriptions are as before.  In the first case [commandSub] is null
    afterwards.  In the second it holds the subscription that is closed
    already: "Cancel" is rendered although nothing runs, and a click on
    it sets [commandSub] to null and leaves the store as it is.  The
    elapsed time in the completion text is the milliseconds followed by
    "ms" below 1000, and from 1000 on (below 2^51) the seconds rounded to
    the nearest tenth followed by "s". *)
Theorem execution_log_entries
    (t0 t1 : Z) (results : list (Z * jsval)) (a : app)
    (c : Command) (t : handle) :
  selectedCommand (disp a) = Some c -> transport (sess a) = Some t ->
  Forall (fun x => token x <> next_token (disp a)) (subscriptions (disp a)) ->
  let later := execute t0 results t1 a in
  let inside := onSendCommand_inside t0 results (CompletesInside t1) a in
  exists new,
    map entry_payload new
    = invocation c (commandValue (disp a))
      ++ map (fun r => result_payload (snd r)) results
      ++ [completion_payload c (t1 - t0)]
    /\ length new = 1 + length (commandValue (disp a)) + length results + 1
    /\ logs (st later) = logs (st a) ++ new
    /\ commandSub (disp later) = None
    /\ subscriptions (disp later) = subscriptions (disp a)
    /\ logs (st inside) = logs (st a) ++ new
    /\ commandSub (disp inside) = Some (next_token (disp a))
    /\ subscription (next_token (disp a)) (disp inside) = None
    /\ subscriptions (disp inside) = subscriptions (disp a)
    /\ cancel_rendered inside = true
    /\ commandSub (disp (onCommandCancel inside)) = None
    /\ st (onCommandCancel inside) = st inside
    /\ ((t1 - t0 < 1000)%Z ->
        Elapsed.delta (t1 - t0) = string_of_Z (t1 - t0) +:+ "ms")
    /\ ((1000 <= t1 - t0 < 2 ^ 51)%Z ->
        exists n,
          Elapsed.delta (t1 - t0)
          = string_of_Z (n / 10) +:+ "." +:+ string_of_Z (n mod 10) +:+ "s"
          /\ (0 <= n)%Z /\ (-50 <= 100 * n - (t1 - t0) <= 50)%Z
          /\ (((t1 - t0) mod 100)%Z <> 50%Z -> n = ((t1 - t0 + 50) / 100)%Z)).
Proof.
  intros Hc Ht Hfresh later inside.
  destruct (execute_effect t0 t1 results a c t Hc Ht Hfresh)
    as ((new & Hl & Hm) & Hsub & Hsubs & Hsel & Hsess).
  fold later in Hl, Hsub, Hsubs, Hsel, Hsess.
  assert (Hin : inside = with_disp (setCommandSub (Some (next_token (disp a))))
                           later).
  { unfold inside, onSendCommand_inside. rewrite Hc, Ht. reflexivity. }
  exists new.
  split; [exact Hm|].
  split.
  { rewrite <- (length_map entry_payload new), Hm, !length_app.
    unfold invocation. simpl. rewrite !length_map. lia. }
  split; [exact Hl|]. split; [exact Hsub|]. split; [exact Hsubs|].
  rewrite Hin.
  cbn [with_disp st disp sess commandSub subscriptions setCommandSub].
  split; [exact Hl|]. split; [reflexivity|].
  split.
  { unfold subscription. cbn [subscriptions setCommandSub]. rewrite Hsubs.
    apply find_fresh. exact Hfresh. }
  split; [exact Hsubs|].
  split.
  { unfold cancel_rendered.
    cbn [with_disp sess disp commandSub selectedCommand setCommandSub].
    rewrite Hsess, Ht, Hsel. reflexivity. }
  unfold onCommandCancel.
  cbn [with_disp disp commandSub setCommandSub].
  split; [reflexivity|]. split; [reflexivity|].
  exact (delta_rendering (t1 - t0)).
Qed.

(** *** Closed subscriptions *)

Ltac subscriptions_same :=
  left; split; [reflexivity|]; split; [reflexivity|]; left; reflexivity.

Ltac subscriptions_closed tok :=
  right; right; exists tok; split; [reflexivity|]; split; reflexivity.

Lemma step_subscriptions_change (now : Z) (ev : event) (a : app) :
  subscriptions_change now (disp a) (disp (step now ev a)).
Proof.
  destruct ev as [sev error|c|bag|error| | |tok result|tok|tok error|thrown
                  |h| |e|log|]; cbn [step]; try subscriptions_same.
  - destruct sev; subscriptions_same.
  - unfold onSelectedCommand.
    destruct c, (transport (sess a)); subscriptions_same.
  - unfold onSendCommand.
    destruct (selectedCommand (disp a)) as [c|], (transport (sess a)) as [t|];
      try subscriptions_same.
    right. left. exists c, t. split; [reflexivity|]. split; reflexivity.
  - unfold onCommandCancel.
    destruct (commandSub (disp a)) as [tok|];
      [subscriptions_closed tok | subscriptions_same].
  - unfold execution_next. destruct (subscription tok (disp a));
      subscriptions_same.
  - unfold execution_complete. destruct (subscription tok (disp a));
      [subscriptions_closed tok | subscriptions_same].
  - unfold execution_error. destruct (subscription tok (disp a));
      [subscriptions_closed tok | subscriptions_same].
  - unfold onSendApdu. destruct (transport (sess a)), thrown;
      subscriptions_same.
Qed.

Lemma find_none_filter (P Q : execution -> bool) (l : list execution) :
  List.find P l = None -> List.find P (List.filter Q l) = None.
Proof.
  induction l as [|x l IH]; simpl; [reflexivity|].
  destruct (P x) eqn:HP; [discriminate|]. intros Hf.
  destruct (Q x); simpl; [rewrite HP|]; apply IH; exact Hf.
Qed.

Lemma find_none_snoc (P : execution -> bool) (l : list execution)
    (x : execution) :
  List.find P l = None -> P x = false -> List.find P (l ++ [x]) = None.
Proof.
  induction l as [|y l IH]; simpl; intros Hf Hx.
  - rewrite Hx. reflexivity.
  - destruct (P y); [discriminate | apply IH; assumption].
Qed.

Lemma find_filtered_out (tok : nat) (l : list execution) :
  List.find (fun x => Nat.eqb (token x) tok)
    (List.filter (fun x => negb (Nat.eqb (token x) tok)) l) = None.
Proof.
  induction l as [|x l IH]; simpl; [reflexivity|].
  destruct (Nat.eqb (token x) tok) eqn:Hx; simpl; [exact IH|].
  rewrite Hx. exact IH.
Qed.

Lemma closed_step (now : Z) (ev : event) (a : app) (tok : nat) :
  closed_subscription tok (disp a) ->
  closed_subscription tok (disp (step now ev a)).
Proof.
  intros [Hf Hlt]. unfold closed_subscription, subscription in *.
  destruct (step_subscriptions_change now ev a)
    as [(Hs & Hn & _) | [(c & t & Hs & Hn & _) | (tok' & Hs & Hn & _)]];
    rewrite Hs, Hn.
  - split; assumption.
  - split; [|lia]. apply find_none_snoc; [exact Hf|]. simpl.
    apply Nat.eqb_neq. lia.
  - split; [|exact Hlt]. apply find_none_filter. exact Hf.
Qed.

Lemma closed_run (evs : list (Z * event)) (tok : nat) : forall a,
  closed_subscription tok (disp a) ->
  closed_subscription tok (disp (run a evs)).
Proof.
  induction evs as [|[now ev] evs IH]; intros a Hc; simpl; [exact Hc|].
  apply IH. apply closed_step. exact Hc.
Qed.

Lemma closed_events_do_nothing (tok : nat) (a : app) :
  closed_subscription tok (disp a) ->
  forall now result error,
    execution_next now tok result a = a
    /\ execution_complete now tok a = a
    /\ execution_error now tok error a = a.
Proof.
  intros [Hf _] now result error.
  unfold execution_next, execution_complete, execution_error.
  rewrite Hf. repeat split.
Qed.

Lemma tokens_issued_step (now : Z) (ev : event) (a : app) :
  tokens_issued (disp a) -> tokens_issued (disp (step now ev a)).
Proof.
  intros [Hall Hsub]. unfold tokens_issued.
  destruct (step_subscriptions_change now ev a)
    as [(Hs & Hn & Hc) | [(c & t & Hs & Hn & Hc) | (tok' & Hs & Hn & Hc)]];
    rewrite Hs, Hn.
  - split; [exact Hall|]. destruct Hc as [-> | ->]; [exact Hsub | discriminate].
  - split.
    + apply Forall_app. split.
      * eapply Forall_impl; [exact Hall|]. simpl. intros x Hx. lia.
      * repeat constructor.
    + rewrite Hc. intros tok [= <-]. lia.
  - split; [|rewrite Hc; discriminate].
    apply Forall_forall. intros x Hx. rewrite Forall_forall in Hall.
    apply Hall. rewrite list_elem_of_In in *. apply filter_In in Hx. tauto.
Qed.

Lemma reachable_tokens_issued (a : app) :
  reachable a -> tokens_issued (disp a).
Proof.
  induction 1 as [now|a now ev Ha IH Hen].
  - split; [constructor | discriminate].
  - apply tokens_issued_step. exact IH.
Qed.

(** X13. "Cancel" in a reachable state with an execution in flight leaves
    the store as it is, so no entry tells of the cancellation, and sets
    [commandSub] to null; whatever happens afterwards, a result, a
    completion or an error of the cancelled execution changes nothing. *)
Theorem cancel_is_silent_and_final (a : app) (tok : nat) :
  reachable a -> commandSub (disp a) = Some tok ->
  st (onCommandCancel a) = st a
  /\ commandSub (disp (onCommandCancel a)) = None
  /\ forall evs now result error,
       let a' := run (onCommandCancel a) evs in
       execution_next now tok result a' = a'
       /\ execution_complete now tok a' = a'
       /\ execution_error now tok error a' = a'.
Proof.
  intros Ha Hsub. destruct (reachable_tokens_issued a Ha) as [_ Hlt].
  specialize (Hlt tok Hsub).
  assert (Hc : closed_subscription tok (disp (onCommandCancel a))).
  { unfold onCommandCancel. rewrite Hsub. split; [|exact Hlt].
    unfold subscription. simpl. apply find_filtered_out. }
  unfold onCommandCancel in *. rewrite Hsub in *.
  split; [reflexivity|]. split; [reflexivity|].
  intros evs now result error.
  apply closed_events_do_nothing. apply closed_run. exact Hc.
Qed.

(** X14. A completion or an error ends an execution for good: after
    either of them in a reachable state, whatever happens next, a further
    result, completion or error of the same execution changes nothing, so
    each execution reports its end to the log at most once. *)
Theorem execution_ends_once (a : app) (tok : nat) (t : Z) (e : jsval) :
  reachable a -> is_Some (subscription tok (disp a)) ->
  forall evs now result error,
    (let a' := run (execution_complete t tok a) evs in
     execution_next now tok result a' = a'
     /\ execution_complete now tok a' = a'
     /\ execution_error now tok error a' = a')
    /\ (let a' := run (execution_error t tok e a) evs in
        execution_next now tok result a' = a'
        /\ execution_complete now tok a' = a'
        /\ execution_error now tok error a' = a').
Proof.
  intros Ha [x Hx]. destruct (reachable_tokens_issued a Ha) as [Hall _].
  assert (Hlt : tok < next_token (disp a)).
  { unfold subscription in Hx. apply find_some in Hx as [Hin Htok].
    rewrite Forall_forall in Hall. rewrite <- list_elem_of_In in Hin.
    specialize (Hall x Hin). simpl in Hall.
    apply Nat.eqb_eq in Htok. lia. }
  intros evs now result error. split.
  - apply closed_events_do_nothing. apply closed_run.
    unfold execution_complete. rewrite Hx. split; [|exact Hlt].
    unfold subscription. simpl. apply find_filtered_out.
  - apply closed_events_do_nothing. apply closed_run.
    unfold execution_error. rewrite Hx. split; [|exact Hlt].
    unfold subscription. simpl. apply find_filtered_out.
Qed.

(** X15. No handler removes, changes or reorders a stored entry: every
    event other than the click on "Clear logs" leaves the log a prefix of
    the log it produces, and that click leaves it empty. *)
Theorem log_is_append_only (now : Z) (ev : event) (a : app) :
  (ev <> ClickClearLogs ->
     exists new, logs (st (step now ev a)) = logs (st a) ++ new)
  /\ (ev = ClickClearLogs -> logs (st (step now ev a)) = []).
Proof.
  split.
  - intros Hev.
    destruct (step_store_grows now ev a Hev) as [(ps & _ & Hs) | Hs];
      rewrite Hs.
    + destruct (fold_addLog_logs now ps (st a)) as (new & Hl & _).
      exists new. exact Hl.
    + exists []. rewrite List.app_nil_r. reflexivity.
  - intros ->. reflexivity.
Qed.

(** X17. In every state the component reaches, an entry that is rendered
    with an [Inspector] is a command entry with a truthy attachment: the
    entries of the two log sources, the error entries and the
    announcement are rendered as text only, and so is a command entry
    whose value or result is falsy. *)
Theorem inspector_only_for_command_entries (a : app) (e : LogEntry) :
  reachable a -> e ∈ logs (st a) ->
  line_inspector (render_log e) <> None ->
  log_type e = "command"
  /\ truthy (log_object e) = true
  /\ line_inspector (render_log e) = Some (log_object e)
  /\ line_space (render_log e) = nbsp.
Proof.
  intros Ha He Hins. destruct (reachable_store a Ha) as [_ Hk].
  rewrite Forall_forall in Hk. destruct (Hk e He) as [_ Hobj].
  simpl in Hobj. unfold render_log in *. simpl in *.
  destruct (truthy (log_object e)) eqn:Ht; [|contradiction].
  split; [|repeat split].
  destruct Hobj as [Hc | Hu]; [exact Hc|].
  rewrite Hu in Ht. discriminate.
Qed.

End UiFacts.

(** ** The rows of backgrounded handles *)

Section BackgroundRows.

Import Session.
Local Open Scope list_scope.

Lemma without_NoDup (t : handle) (l : list handle) :
  NoDup l -> NoDup (without t l).
Proof.
  induction 1 as [|x l Hx Hl IH]; simpl; [constructor|].
  destruct (negb (x =? t)%nat); [|exact IH].
  constructor; [|exact IH].
  intros Hin. apply elem_of_without in Hin as [Hin _]. exact (Hx Hin).
Qed.

(** Neither [leftTransports] nor the list [onLeaveTransport] closed over
    repeats a handle, and the latter does not hold the active handle. *)
Lemma reachable_rows (s : session) :
  reachable s ->
  NoDup (leftTransports s) /\ NoDup (onLeave_leftTransports s)
  /\ forall h, transport s = Some h -> h ∉ onLeave_leftTransports s.
Proof.
  induction 1 as [|s ev Hs (Hl & Hc & Ha) Hen].
  - repeat split; try constructor. intros h Hh. discriminate.
  - unfold react, render.
    cbn [transport leftTransports onLeave_leftTransports].
    destruct ev as [|t| | | |t|t|t]; cbn [handler enabled] in *.
    + cbn [onOpenTransport transport leftTransports].
      split; [exact Hl|].
      split; [destruct (decide (transport s = None)); assumption|].
      intros h Hh. discriminate.
    + cbn [open_resolved transport leftTransports].
      apply andb_prop in Hen as [Hen _]. apply andb_prop in Hen as [_ Hen].
      apply negb_true_iff, mem_false in Hen.
      split; [exact Hl|].
      destruct (decide (transport s = Some t)) as [Heq|Hne].
      * split; [exact Hc|]. intros h [= <-]. apply Ha. exact Heq.
      * split; [exact Hl|]. intros h [= <-]. exact Hen.
    + cbn [open_rejected transport leftTransports].
      destruct (decide (transport s = transport s)); [|contradiction].
      repeat split; assumption.
    + unfold onLeaveTransport. destruct (transport s) as [h|] eqn:Ht;
        [|discriminate].
      cbn [transport leftTransports].
      assert (Hnew : NoDup (onLeave_leftTransports s ++ [h])).
      { apply NoDup_app. split; [exact Hc|]. split.
        - intros x Hx Hx'. apply list_elem_of_singleton in Hx'. subst x.
          exact (Ha h eq_refl Hx).
        - apply NoDup_singleton. }
      destruct (decide (Some h = None)); [discriminate|].
      split; [exact Hnew|]. split; [exact Hnew|]. intros x Hx. discriminate.
    + unfold onClose. destruct (transport s) as [h|] eqn:Ht; [|discriminate].
      cbn [close_handle transport leftTransports]. rewrite ?Ht.
      destruct (decide (Some h = Some h)); [|contradiction].
      split; [exact Hl|]. split; [exact Hc|]. exact Ha.
    + cbn [reuse transport leftTransports].
      pose proof (without_NoDup t _ Hl) as Hw.
      split; [exact Hw|].
      destruct (decide (transport s = Some t)) as [Heq|Hne].
      * split; [exact Hc|]. intros h [= <-]. apply Ha. exact Heq.
      * split; [exact Hw|]. intros h [= <-]. apply not_elem_of_without.
    + cbn [close_handle transport leftTransports].
      destruct (decide (transport s = transport s)); [|contradiction].
      repeat split; assumption.
    + unfold disconnected.
      destruct (decide (transport s = Some t)) as [Heq|Hne];
        cbn [transport leftTransports].
      * rewrite Heq. destruct (decide (Some t = None)); [discriminate|].
        split; [exact Hl|]. split; [exact Hl|]. intros h Hh. discriminate.
      * destruct (decide (transport s = transport s)); [|contradiction].
        split; [apply without_NoDup; exact Hl|].
        split; [exact Hc | exact Ha].
Qed.

(** X16. In a reachable session no handle occurs twice in
    [leftTransports]: each backgrounded handle has one row, with one
    "Re-use" and one "Close" button, also after a leave that used the
    list of an earlier render. *)
Theorem one_row_per_backgrounded_handle (s : session) :
  reachable s ->
  NoDup (leftTransports s)
  /\ forall h, transport s = Some h ->
       NoDup (leftTransports (react s ClickLeave)).
Proof.
  intros Hs. destruct (reachable_rows s Hs) as (Hl & _ & _).
  split; [exact Hl|]. intros h Hh.
  assert (Hen : enabled s ClickLeave = true) by (simpl; rewrite Hh; reflexivity).
  destruct (reachable_rows _ (reachable_step s ClickLeave Hs Hen))
    as (Hl' & _ & _).
  exact Hl'.
Qed.

End BackgroundRows.

(** ** Further statements at concrete inputs *)

Section MoreInstances.

Import App Ui Scenario.
Local Open Scope list_scope.

Lemma idle_reachable : Ui.reachable idle.
Proof.
  apply ui_reachable_run; [apply Ui.reachable_init | reflexivity].
Qed.

Lemma busy_reachable : Ui.reachable busy.
Proof.
  apply ui_reachable_run; [exact idle_reachable | reflexivity].
Qed.

Lemma backgrounded_reachable : Session.reachable backgrounded.
Proof.
  apply reachable_run; [apply Session.reachable_init | reflexivity].
Qed.

Lemma second_active_reachable : Session.reachable second_active.
Proof.
  apply reachable_run; [apply Session.reachable_init | reflexivity].
Qed.

(** An APDU log puts an apdu payload into the stream. *)
Lemma sources_emit_source_kinds_witness :
  let log := Raw "apdu" (JStr "=> e0c4000000") JUndefined in
  payload2 "apdu" (JStr "=> e0c4000000") ∈ Stream.emitted (Stream.FromDevice log)
  /\ "apdu" ∈ Stream.source_kinds.
Proof.
  intros log.
  assert (H : payload2 "apdu" (JStr "=> e0c4000000")
              ∈ Stream.emitted (Stream.FromDevice log))
    by (apply list_elem_of_singleton; reflexivity).
  split; [exact H|].
  exact (proj1 (sources_emit_source_kinds _ _ H)).
Defined.

(** Hiding the APDUs of a log of three entries. *)
Lemma toggle_changes_one_kind_witness :
  let l := [Entry 1 0 "announcement" (JStr announcement) JUndefined;
            Entry 2 5 "apdu" (JStr "=> e0c4000000") JUndefined;
            Entry 3 6 "command" (JStr "<=") (JStr "1.6.0")] in
  Filters.enabled Filters.initial "apdu" = true
  /\ Filters.rendered (Filters.toggleFilter Filters.initial "apdu") l
     = List.filter (Clicks.other_kind "apdu")
         (Filters.rendered Filters.initial l).
Proof.
  intros l.
  assert (H : Filters.enabled Filters.initial "apdu" = true) by reflexivity.
  split; [exact H|].
  destruct (toggle_changes_one_kind Filters.initial "apdu" l) as (_ & Hon & _).
  exact (Hon H).
Defined.

(** Two clicks in either order. *)
Lemma header_filter_is_click_parity_witness :
  Permutation [Filters.Commands; Filters.APDUs]
              [Filters.APDUs; Filters.Commands]
  /\ Filters.clicks [Filters.Commands; Filters.APDUs]
     = Filters.clicks [Filters.APDUs; Filters.Commands].
Proof.
  assert (H : Permutation [Filters.Commands; Filters.APDUs]
                          [Filters.APDUs; Filters.Commands])
    by apply perm_swap.
  split; [exact H|].
  exact (proj2 (header_filter_is_click_parity
                  [Filters.Commands; Filters.APDUs] Filters.Commands) _ H).
Defined.

(** The backgrounded handle 1 disconnects while handle 2 is active. *)
Lemma disconnect_notification_witness :
  transport second_active <> Some 1
  /\ transport (react second_active (Disconnect 1)) = transport second_active
  /\ leftTransports (react second_active (Disconnect 1))
     = without 1 (leftTransports second_active).
Proof.
  assert (H : transport second_active <> Some 1) by discriminate.
  split; [exact H|].
  destruct (disconnect_notification second_active 1) as (_ & Hbg & _).
  destruct (Hbg H) as (Ht & Hl & _).
  split; [exact Ht | exact Hl].
Defined.

(** Handle 1 leaves the background by its re-use. *)
Lemma backgrounded_handle_stays_witness :
  Session.reachable backgrounded
  /\ 1 ∈ leftTransports backgrounded
  /\ (1 ∉ leftTransports (react backgrounded (ClickReuse 1)))
  /\ (ClickReuse 1 = Disconnect 1 \/ ClickReuse 1 = ClickReuse 1).
Proof.
  assert (Hin : 1 ∈ leftTransports backgrounded)
    by (apply list_elem_of_singleton; reflexivity).
  assert (Hout : 1 ∉ leftTransports (react backgrounded (ClickReuse 1)))
    by (intros H; apply elem_of_nil in H; exact H).
  split; [exact backgrounded_reachable|]. split; [exact Hin|].
  split; [exact Hout|].
  exact (backgrounded_handle_stays backgrounded (ClickReuse 1) 1
           backgrounded_reachable Hin Hout).
Defined.

(** Leaving handle 2 with handle 1 in the background. *)
Lemma leave_keeps_backgrounded_witness :
  Session.reachable second_active /\ transport second_active = Some 2
  /\ sublist (leftTransports second_active ++ [2])
             (leftTransports (react second_active ClickLeave)).
Proof.
  assert (Ht : transport second_active = Some 2) by reflexivity.
  split; [exact second_active_reachable|]. split; [exact Ht|].
  destruct (leave_keeps_backgrounded second_active 2
              second_active_reachable Ht) as (_ & Hsub & _).
  exact Hsub.
Defined.

(** Re-using handle 1 and leaving it again. *)
Lemma reuse_then_leave_witness :
  1 ∈ leftTransports backgrounded /\ transport backgrounded <> Some 1
  /\ leftTransports (react (react backgrounded (ClickReuse 1)) ClickLeave)
     = without 1 (leftTransports backgrounded) ++ [1].
Proof.
  assert (Hin : 1 ∈ leftTransports backgrounded)
    by (apply list_elem_of_singleton; reflexivity).
  assert (Hne : transport backgrounded <> Some 1) by discriminate.
  split; [exact Hin|]. split; [exact Hne|].
  destruct (reuse_then_leave backgrounded 1 Hin Hne) as (_ & Hl & _).
  exact Hl.
Defined.

(** The keys of the view while the command is running. *)
Lemma rendered_keys_are_distinct_witness :
  Ui.reachable busy /\ NoDup (map log_id (view busy)).
Proof.
  split; [exact busy_reachable|].
  destruct (rendered_keys_are_distinct busy busy_reachable) as (_ & _ & _ & H).
  exact H.
Defined.

(** The announcement in the state [busy]. *)
Lemma stored_kinds_are_filter_keys_witness :
  let e := Entry 1 0 "announcement" (JStr announcement) JUndefined in
  Ui.reachable busy /\ e ∈ logs (st busy)
  /\ log_type e ∈ Filters.kinds.
Proof.
  intros e.
  assert (He : e ∈ logs (st busy)) by apply list_elem_of_here.
  split; [exact busy_reachable|]. split; [exact He|].
  exact (proj1 (stored_kinds_are_filter_keys busy e busy_reachable He)).
Defined.

(** One subscription is open in the state [busy]. *)
Lemma at_most_one_execution_witness :
  Ui.reachable busy /\ length (subscriptions (disp busy)) <= 1.
Proof.
  split; [exact busy_reachable|].
  exact (proj1 (at_most_one_execution busy busy_reachable)).
Defined.

(** The spec's scenario: three results, completion after 1500 ms. *)
Lemma execution_log_entries_witness :
  selectedCommand (disp idle) = Some ping
  /\ transport (sess idle) = Some 1
  /\ Forall (fun x => token x <> next_token (disp idle))
            (subscriptions (disp idle))
  /\ exists new,
       map entry_payload new
       = invocation ping (commandValue (disp idle))
         ++ map (fun r => result_payload (snd r)) three_results
         ++ [completion_payload ping (1510 - 10)]
       /\ logs (st (execute 10 three_results 1510 idle))
          = logs (st idle) ++ new
       /\ logs (st (onSendCommand_inside 10 three_results
                      (CompletesInside 1510) idle))
          = logs (st idle) ++ new
       /\ commandSub (disp (onSendCommand_inside 10 three_results
                              (CompletesInside 1510) idle))
          = Some (next_token (disp idle)).
Proof.
  assert (Hc : selectedCommand (disp idle) = Some ping) by reflexivity.
  assert (Ht : transport (sess idle) = Some 1) by reflexivity.
  assert (Hf : Forall (fun x => token x <> next_token (disp idle))
                      (subscriptions (disp idle))) by constructor.
  split; [exact Hc|]. split; [exact Ht|]. split; [exact Hf|].
  destruct (execution_log_entries 10 1510 three_results idle ping 1 Hc Ht Hf)
    as (new & Hm & _ & Hl & _ & _ & Hli & Hsi & _).
  exists new. split; [exact Hm|]. split; [exact Hl|].
  split; [exact Hli | exact Hsi].
Defined.

(** Cancelling the execution of [busy]. *)
Lemma cancel_is_silent_and_final_witness :
  Ui.reachable busy /\ commandSub (disp busy) = Some 0
  /\ st (onCommandCancel busy) = st busy
  /\ execution_complete 1510 0 (onCommandCancel busy) = onCommandCancel busy.
Proof.
  assert (Hs : commandSub (disp busy) = Some 0) by reflexivity.
  split; [exact busy_reachable|]. split; [exact Hs|].
  destruct (cancel_is_silent_and_final busy 0 busy_reachable Hs)
    as (Hst & _ & Hfinal).
  split; [exact Hst|].
  exact (proj1 (proj2 (Hfinal [] 1510%Z JUndefined JUndefined))).
Defined.

(** A second completion of the execution of [busy]. *)
Lemma execution_ends_once_witness :
  Ui.reachable busy /\ is_Some (subscription 0 (disp busy))
  /\ execution_complete 1600 0 (execution_complete 1510 0 busy)
     = execution_complete 1510 0 busy.
Proof.
  assert (Hs : is_Some (subscription 0 (disp busy)))
    by (eexists; reflexivity).
  split; [exact busy_reachable|]. split; [exact Hs|].
  destruct (execution_ends_once busy 0 1510 JUndefined busy_reachable Hs
              [] 1600%Z JUndefined JUndefined) as [(_ & Hc & _) _].
  exact Hc.
Defined.

(** The first result of the scenario, logged in the state [busy]. *)
Lemma inspector_only_for_command_entries_witness :
  let a := execution_next 20 0 (JStr "1.6.0") busy in
  let e := Entry 3 20 "command" (JStr "<=") (JStr "1.6.0") in
  Ui.reachable a /\ e ∈ logs (st a)
  /\ line_inspector (render_log e) <> None
  /\ log_type e = "command".
Proof.
  intros a e.
  assert (Ha : Ui.reachable a).
  { exact (Ui.reachable_step busy 20 (ExecutionNext 0 (JStr "1.6.0"))
             busy_reachable eq_refl). }
  assert (He : e ∈ logs (st a)).
  { do 2 apply list_elem_of_further. apply list_elem_of_here. }
  assert (Hi : line_inspector (render_log e) <> None) by discriminate.
  split; [exact Ha|]. split; [exact He|]. split; [exact Hi|].
  exact (proj1 (inspector_only_for_command_entries a e Ha He Hi)).
Defined.

(** "Send" in the state [idle] keeps the log as a prefix. *)
Lemma log_is_append_only_witness :
  ClickSend <> ClickClearLogs
  /\ exists new, logs (st (step 10 ClickSend idle)) = logs (st idle) ++ new.
Proof.
  assert (H : ClickSend <> ClickClearLogs) by discriminate.
  split; [exact H|].
  exact (proj1 (log_is_append_only 10 ClickSend idle) H).
Defined.

(** The rows after leaving handle 2. *)
Lemma one_row_per_backgrounded_handle_witness :
  Session.reachable second_active
  /\ NoDup (leftTransports (react second_active ClickLeave)).
Proof.
  split; [exact second_active_reachable|].
  exact (proj2 (one_row_per_backgrounded_handle second_active
                  second_active_reachable) 2 eq_refl).
Defined.

End MoreInstances.
